(** * Case Closed heuristic agent: board utilities, heuristic scorer, move selector

    A shallow embedding of [board.py], [heuristic.py], [search.py] and the
    exception handling of [agent.py].

    Conventions of the model:
    - a Python exception is an [Err] of the result type [res]; [IndexError]
      and [ValueError] are the only ones the modelled code can raise;
    - Python list indexing (with its negative-index wrap-around) is [py_get]
      and [py_set];
    - a board is a list of rows, a row a list of cell strings ([" "] open,
      ["X"] wall);
    - the [while stack:] loops run on a fuel argument; running out of fuel is
      the model's [FuelExhausted] result, which Python has no counterpart of,
      and the termination lemmas below show the fuel given is always enough
      for the loops that need it;
    - the float weights of [heuristic.py] are exact rationals [Q]. *)

From Stdlib Require Import ZArith QArith String List Lia Lqa.
From Stdlib Require Import Sorting.Sorted.
From stdpp Require Import base gmap sets list strings.

Open Scope Z_scope.

(** ** Results with Python exceptions *)

Inductive exn : Type :=
  | IndexError
  | ValueError
  | FuelExhausted.

Inductive res (A : Type) : Type :=
  | Ok (a : A)
  | Err (e : exn).
Arguments Ok {A} a.
Arguments Err {A} e.

Definition rbind {A B} (m : res A) (k : A -> res B) : res B :=
  match m with
  | Ok a => k a
  | Err e => Err e
  end.

Notation "'let*' x ':=' m 'in' k" := (rbind m (fun x => k))
  (at level 200, x name, m at level 100, k at level 200).

Definition of_option {A} (e : exn) (o : option A) : res A :=
  match o with
  | Some a => Ok a
  | None => Err e
  end.

(** [l[i]] on a Python list: negative indices count from the end. *)
Definition py_index (n : nat) (i : Z) : option nat :=
  let n' := Z.of_nat n in
  if (0 <=? i) && (i <? n') then Some (Z.to_nat i)
  else if (- n' <=? i) && (i <? 0) then Some (Z.to_nat (n' + i))
  else None.

Definition py_get {A} (l : list A) (i : Z) : res A :=
  match py_index (length l) i with
  | Some k => of_option IndexError (l !! k)
  | None => Err IndexError
  end.

(** [l[i] = x] *)
Definition py_set {A} (l : list A) (i : Z) (x : A) : res (list A) :=
  match py_index (length l) i with
  | Some k => Ok (<[k := x]> l)
  | None => Err IndexError
  end.

(** ** board.py *)

Definition H : Z := 18.
Definition W : Z := 20.

Inductive dir : Type := UP | DOWN | LEFT | RIGHT.

#[global] Instance dir_eq_dec : EqDecision dir.
Proof. solve_decision. Defined.

(** [DIRS] (and the iteration order of [DELTAS.values()]). *)
Definition DIRS : list dir := [UP; DOWN; LEFT; RIGHT].

Definition DELTAS (d : dir) : Z * Z :=
  match d with
  | UP => (-1, 0)
  | DOWN => (1, 0)
  | LEFT => (0, -1)
  | RIGHT => (0, 1)
  end.

(** The key lookup [DELTAS.get(name, ...)] on a direction name. *)
Definition dir_of_string (s : string) : option dir :=
  if String.eqb s "UP" then Some UP
  else if String.eqb s "DOWN" then Some DOWN
  else if String.eqb s "LEFT" then Some LEFT
  else if String.eqb s "RIGHT" then Some RIGHT
  else None.

Definition inb (r c : Z) : bool := (0 <=? r) && (r <? H) && (0 <=? c) && (c <? W).

Abbreviation pos := (Z * Z)%type.

Definition step (p : pos) (d : dir) : pos :=
  let '(dr, dc) := DELTAS d in (p.1 + dr, p.2 + dc).

Definition inbp (p : pos) : bool := inb p.1 p.2.

Definition board : Type := list (list string).

(** [l[i][j]] and [l[i][j] = x] on a list of distinct row lists. *)
Definition py_get2 {A} (l : list (list A)) (i j : Z) : res A :=
  let* row := py_get l i in py_get row j.

Definition py_set2 {A} (l : list (list A)) (i j : Z) (x : A) : res (list (list A)) :=
  let* row := py_get l i in
  let* row' := py_set row j x in
  py_set l i row'.

(** [board[r][c]] *)
Definition cell (b : board) (r c : Z) : res string := py_get2 b r c.

Definition OPEN : string := " ".
Definition WALL : string := "X".

Fixpoint legal_moves_loop (b : board) (r c : Z) (ds : list dir) : res (list dir) :=
  match ds with
  | [] => Ok []
  | d :: ds' =>
      let '(dr, dc) := DELTAS d in
      let nr := r + dr in
      let nc := c + dc in
      if inb nr nc then
        let* v := cell b nr nc in
        let* rest := legal_moves_loop b r c ds' in
        Ok (if String.eqb v OPEN then d :: rest else rest)
      else legal_moves_loop b r c ds'
  end.

Definition legal_moves (b : board) (p : pos) : res (list dir) :=
  legal_moves_loop b p.1 p.2 DIRS.

(** [flood_fill_area] with the direction order of its inner loop as a
    parameter [ds]; the source iterates over [DIRS].  The stack is a list
    whose head is the top ([stack.pop()] / [stack.append]).  The
    [@lru_cache] decorator is not modelled: its key is the (immutable)
    argument pair, so a cache hit returns the value computed here. *)
Fixpoint ff_dirs (b : board) (r c : Z) (ds : list dir) (seen : gset pos)
    (stack : list pos) : res (gset pos * list pos) :=
  match ds with
  | [] => Ok (seen, stack)
  | d :: ds' =>
      let '(dr, dc) := DELTAS d in
      let nr := r + dr in
      let nc := c + dc in
      if bool_decide ((nr, nc) ∉ seen) && inb nr nc then
        let* v := cell b nr nc in
        if String.eqb v OPEN
        then ff_dirs b r c ds' ({[(nr, nc)]} ∪ seen) ((nr, nc) :: stack)
        else ff_dirs b r c ds' seen stack
      else ff_dirs b r c ds' seen stack
  end.

Fixpoint ff_loop (fuel : nat) (b : board) (ds : list dir) (seen : gset pos)
    (stack : list pos) : res (gset pos) :=
  match fuel with
  | O => Err FuelExhausted
  | S f =>
      match stack with
      | [] => Ok seen
      | p :: stack' =>
          let* q := ff_dirs b p.1 p.2 ds seen stack' in
          let '(seen', stack'') := q in
          ff_loop f b ds seen' stack''
      end
  end.

Definition ff_fuel : nat := 2 * 360 + 2.

Definition flood_fill_gen (ds : list dir) (b : board) (start : pos) : res nat :=
  let* _ := py_get b 0 in
  if negb (inbp start) then Ok 0%nat
  else
    let* v := cell b start.1 start.2 in
    if negb (String.eqb v OPEN) then Ok 0%nat
    else
      let* seen := ff_loop ff_fuel b ds {[start]} [start] in
      Ok (size seen).

Definition flood_fill_area (b : board) (start : pos) : res nat :=
  flood_fill_gen DIRS b start.

(** ** heuristic.py *)

Definition simulate_move (b : board) (p : pos) (mv : dir) : res (pos * bool) :=
  let '(nr, nc) := step p mv in
  if negb (inb nr nc) then Ok (p, true)
  else
    let* v := cell b nr nc in
    if String.eqb v WALL then Ok (p, true) else Ok ((nr, nc), false).

Definition next_legal_moves (b : board) (p : pos) : res nat :=
  let* ms := legal_moves b p in Ok (length ms).

(** [longest_safe_path]: the inner loop over [DELTAS.values()]. *)
Fixpoint lsp_dirs (b : board) (p : pos) (visited : gset pos) (ds : list dir)
    (stack : list (pos * gset pos)) (best : nat) : res (list (pos * gset pos) * nat) :=
  match ds with
  | [] => Ok (stack, best)
  | d :: ds' =>
      let '(nr, nc) := step p d in
      if negb (inb nr nc) then lsp_dirs b p visited ds' stack best
      else
        let* v := cell b nr nc in
        if String.eqb v WALL || bool_decide ((nr, nc) ∈ visited)
        then lsp_dirs b p visited ds' stack best
        else lsp_dirs b p visited ds' (((nr, nc), visited ∪ {[p]}) :: stack)
               (Nat.max best 1)
  end.

Fixpoint lsp_loop (fuel : nat) (b : board) (memo : gmap pos nat)
    (stack : list (pos * gset pos)) (max_len : nat) : res nat :=
  match fuel with
  | O => Err FuelExhausted
  | S f =>
      match stack with
      | [] => Ok max_len
      | (p, visited) :: stack' =>
          match memo !! p with
          | Some m => lsp_loop f b memo stack' (Nat.max max_len (m + size visited))
          | None =>
              let* q := lsp_dirs b p visited DIRS stack' 0 in
              let '(stack'', best) := q in
              lsp_loop f b (<[p := best]> memo) stack''
                (Nat.max max_len (size visited + best))
          end
      end
  end.

Definition lsp_fuel : nat := 5 * 361 + 2.

Definition longest_safe_path (b : board) (start : pos) : res nat :=
  let* _ := py_get b 0 in
  lsp_loop lsp_fuel b ∅ [(start, ∅)] 0.

(** [territorial_threat]: a distance map is [[None]*W for _ in range(H)],
    the deque a list with [popleft] at its head and [append] at its end. *)
Definition dist_map : Type := list (list (option nat)).

Fixpoint bfs_dirs (b : board) (dist : dist_map) (p : pos) (d : nat) (ds : list dir)
    (q : list (pos * nat)) : res (dist_map * list (pos * nat)) :=
  match ds with
  | [] => Ok (dist, q)
  | dd :: ds' =>
      let '(nr, nc) := step p dd in
      if negb (inb nr nc) then bfs_dirs b dist p d ds' q
      else
        let* v := cell b nr nc in
        if String.eqb v WALL then bfs_dirs b dist p d ds' q
        else
          let* x := py_get2 dist nr nc in
          match x with
          | None =>
              let* dist' := py_set2 dist nr nc (Some (S d)) in
              bfs_dirs b dist' p d ds' (q ++ [((nr, nc), S d)])
          | Some _ => bfs_dirs b dist p d ds' q
          end
  end.

Fixpoint bfs_loop (fuel : nat) (max_depth : nat) (b : board) (dist : dist_map)
    (q : list (pos * nat)) : res dist_map :=
  match fuel with
  | O => Err FuelExhausted
  | S f =>
      match q with
      | [] => Ok dist
      | (p, d) :: q' =>
          if Nat.leb max_depth d then bfs_loop f max_depth b dist q'
          else
            let* r := bfs_dirs b dist p d DIRS q' in
            let '(dist', q'') := r in
            bfs_loop f max_depth b dist' q''
      end
  end.

Definition bfs_fuel : nat := 2 * 360 + 2.

Definition bfs (max_depth : nat) (b : board) (start : pos) (dist : dist_map) : res dist_map :=
  let* dist0 := py_set2 dist start.1 start.2 (Some 0%nat) in
  bfs_loop bfs_fuel max_depth b dist0 [(start, 0%nat)].

(** The counting loops [for i in range(H): for j in range(W): ...]. *)
Fixpoint tt_count (dy dopp : dist_map) (ijs : list (nat * nat)) (threat total : nat)
    : res (nat * nat) :=
  match ijs with
  | [] => Ok (threat, total)
  | (i, j) :: ijs' =>
      let* y := py_get2 dy (Z.of_nat i) (Z.of_nat j) in
      match y with
      | None => tt_count dy dopp ijs' threat total
      | Some a =>
          let* o := py_get2 dopp (Z.of_nat i) (Z.of_nat j) in
          match o with
          | Some b' => if Nat.leb b' a
                       then tt_count dy dopp ijs' (S threat) (S total)
                       else tt_count dy dopp ijs' threat (S total)
          | None => tt_count dy dopp ijs' threat (S total)
          end
      end
  end.

Definition grid_indices (h w : nat) : list (nat * nat) :=
  flat_map (fun i => map (fun j => (i, j)) (seq 0 w)) (seq 0 h).

Definition Q_of_nat (n : nat) : Q := inject_Z (Z.of_nat n).

Definition territorial_threat_d (max_depth : nat) (b : board) (you opp : pos) : res Q :=
  let* row0 := py_get b 0 in
  let h := length b in
  let w := length row0 in
  let empty := repeat (repeat None w) h in
  let* dy := bfs max_depth b you empty in
  let* dopp := bfs max_depth b opp empty in
  let* tt := tt_count dy dopp (grid_indices h w) 0 0 in
  let '(threat, total) := tt in
  if Nat.eqb total 0 then Ok 0%Q
  else Ok (Q_of_nat threat / Q_of_nat total)%Q.

Definition territorial_threat (b : board) (you opp : pos) : res Q :=
  territorial_threat_d 6 b you opp.

(** Tunable weights. *)
Definition W_PATH_DIFF : Q := 3 # 100.
Definition W_HEADON : Q := -1 # 2.
Definition W_RISK : Q := -1 # 5.
Definition W_SURVIVAL : Q := 1 # 10.
Definition W_ENDGAME : Q := 3 # 10.
Definition W_EXPLORATION : Q := 1 # 20.
Definition W_FREEDOM : Q := 1 # 50.
Definition W_TERRITORY_THREAT : Q := -1 # 50.
Definition W_FATAL : Q := -9999 # 1.

(** The game state dictionary; [opponent_last_direction] may be absent. *)
Record game_state : Type := {
  gs_board : board;
  gs_you : pos;
  gs_opp : pos;
  gs_opp_dir : option string
}.

(** The quantities [heuristic_score] aggregates. *)
Record score_parts : Type := {
  sp_path_diff : Z;
  sp_headon : bool;
  sp_risk : bool;
  sp_threat : Q;
  sp_explore : bool;
  sp_freedom : nat;
  sp_endgame : bool
}.

Definition Q_of_bool (x : bool) : Q := if x then 1%Q else 0%Q.

(** The [# Score aggregation] block. *)
Definition aggregate (sp : score_parts) : Q :=
  let s := 0%Q in
  let s := (s + W_SURVIVAL)%Q in
  let s := (s + W_PATH_DIFF * inject_Z (sp_path_diff sp))%Q in
  let s := (s + W_HEADON * Q_of_bool (sp_headon sp))%Q in
  let s := (s + W_RISK * Q_of_bool (sp_risk sp))%Q in
  let s := (s + W_TERRITORY_THREAT * sp_threat sp)%Q in
  let s := if sp_explore sp then (s + W_EXPLORATION)%Q else s in
  let s := (s + W_FREEDOM * Q_of_nat (sp_freedom sp))%Q in
  if sp_endgame sp then (s + W_ENDGAME)%Q else s.

(** Path advantage, threat, head-on, risk, endgame, exploration and freedom,
    computed on the marked board [b] in the order of the source. *)
Definition compute_parts (b : board) (new_you opp : pos) (opp_dir : option string)
    : res score_parts :=
  let* my_path_len := longest_safe_path b new_you in
  let* opp_path_len := longest_safe_path b opp in
  let path_diff := (Z.of_nat my_path_len - Z.of_nat opp_path_len)%Z in
  let* threat_ratio := territorial_threat b new_you opp in
  let headon := bool_decide (new_you = opp) in
  let '(dr, dc) := match dir_of_string (default "UP" opp_dir) with
                   | Some d => DELTAS d
                   | None => (0, 0)
                   end in
  let predicted := (opp.1 + dr, opp.2 + dc) in
  let risk := bool_decide (new_you = predicted) in
  let endgame := forallb (forallb (fun c => String.eqb c WALL)) b in
  let* v := cell b new_you.1 new_you.2 in
  let* freedom := next_legal_moves b new_you in
  Ok {| sp_path_diff := path_diff; sp_headon := headon; sp_risk := risk;
        sp_threat := threat_ratio; sp_explore := String.eqb v OPEN;
        sp_freedom := freedom; sp_endgame := endgame |}.

(** [heuristic_score] from the re-check of the destination on the marked
    board onwards. *)
Definition score_tail (b : board) (new_you opp : pos) (opp_dir : option string) : res Q :=
  if negb (inbp new_you) then Ok W_FATAL
  else
    let* v := cell b new_you.1 new_you.2 in
    if String.eqb v WALL then Ok W_FATAL
    else
      let* sp := compute_parts b new_you opp opp_dir in
      Ok (aggregate sp).

(** [heuristic_score] on a state decoded from JSON, whose rows are distinct
    lists: [deepcopy] then gives a private board value.  The store-level
    version, with the caller's board as a shared object, is
    [Heap.heuristic_score_heap] below. *)
Definition heuristic_score (st : game_state) (mv : dir) : res Q :=
  let b := gs_board st in
  let you := gs_you st in
  let opp := gs_opp st in
  let* sm := simulate_move b you mv in
  let '(new_you, crash_you) := sm in
  if crash_you then Ok W_FATAL
  else
    let* b1 := py_set2 b you.1 you.2 WALL in
    let* b2 := py_set2 b1 opp.1 opp.2 WALL in
    score_tail b2 new_you opp (gs_opp_dir st).

(** ** search.py *)

Definition MOVES : list dir := [UP; DOWN; LEFT; RIGHT].

Definition is_valid_move (b : board) (p : pos) (mv : dir) : res bool :=
  let '(nr, nc) := step p mv in
  if inb nr nc then
    let* v := cell b nr nc in
    Ok (negb (String.eqb v WALL))
  else Ok false.

(** [np.array(board, dtype="<U1")]: a ragged board raises [ValueError];
    otherwise every cell is truncated to its first character. *)
Definition np_array_u1 (b : board) : res board :=
  match b with
  | [] => Ok []
  | row0 :: _ =>
      if forallb (fun row => Nat.eqb (length row) (length row0)) b
      then Ok (map (map (fun s => substring 0 1 s)) b)
      else Err ValueError
  end.

Fixpoint filter_valid (b : board) (p : pos) (ms : list dir) : res (list dir) :=
  match ms with
  | [] => Ok []
  | m :: ms' =>
      let* ok := is_valid_move b p m in
      let* rest := filter_valid b p ms' in
      Ok (if ok then m :: rest else rest)
  end.

(** [{m: heuristic_score(state, m) for m in valid_moves}] *)
Fixpoint score_all (st : game_state) (ms : list dir) : res (list (dir * Q)) :=
  match ms with
  | [] => Ok []
  | m :: ms' =>
      let* s := heuristic_score st m in
      let* rest := score_all st ms' in
      Ok ((m, s) :: rest)
  end.

(** [max(scores, key=scores.get)]: the running maximum is replaced only by
    a strictly greater key. *)
Definition max_step (acc x : dir * Q) : dir * Q :=
  if Qle_bool x.2 acc.2 then acc else x.

Definition py_max (scores : list (dir * Q)) : res dir :=
  match scores with
  | [] => Err ValueError
  | x :: rest => Ok (fold_left max_step rest x).1
  end.

(** [choose_move]; [rnd] is the value [random.choice(MOVES)] draws. *)
Definition choose_move (st : game_state) (rnd : dir) : res dir :=
  let* b := np_array_u1 (gs_board st) in
  let you := gs_you st in
  let* valid_moves := filter_valid b you MOVES in
  match valid_moves with
  | [] => Ok rnd
  | _ :: _ =>
      let* scores := score_all st valid_moves in
      py_max scores
  end.

(** ** agent.py: one tick of [main] after the state has been decoded *)

Definition dir_name (d : dir) : string :=
  match d with
  | UP => "UP"
  | DOWN => "DOWN"
  | LEFT => "LEFT"
  | RIGHT => "RIGHT"
  end.

(** [sanitize_move] on the strings it can receive here ([strip] and
    [upper] leave them unchanged). *)
Definition sanitize_move (s : string) : string :=
  match dir_of_string s with
  | Some _ => s
  | None => "UP"
  end.

Definition agent_tick (st : game_state) (rnd : dir) : string :=
  let move := match choose_move st rnd with
              | Ok m => dir_name m
              | Err _ => "UP"
              end in
  sanitize_move move.

(** ** Notions used in the statements *)

(** An arena board of the fixed size [H] x [W]. *)
Definition board_shape (b : board) : bool :=
  Nat.eqb (length b) 18 && forallb (fun row => Nat.eqb (length row) 20) b.

(** Every cell is [" "] or ["X"]. *)
Definition open_or_wall (b : board) : Prop :=
  Forall (Forall (fun s => s = OPEN \/ s = WALL)) b.

(** The in-bounds cells. *)
Definition cells_list : list pos :=
  flat_map (fun r => map (fun c => (Z.of_nat r, Z.of_nat c)) (seq 0 20)) (seq 0 18).

Definition all_cells : gset pos := list_to_set cells_list.

(** 4-connected reachability over open cells from [s]. *)
Inductive reachable (b : board) (s : pos) : pos -> Prop :=
  | reach_start :
      inbp s = true -> cell b s.1 s.2 = Ok OPEN -> reachable b s s
  | reach_step (p : pos) (d : dir) :
      reachable b s p -> inbp (step p d) = true ->
      cell b (step p d).1 (step p d).2 = Ok OPEN -> reachable b s (step p d).

(** The rank of a direction in [MOVES]. *)
Definition dir_rank (d : dir) : nat :=
  match d with UP => 0 | DOWN => 1 | LEFT => 2 | RIGHT => 3 end.

(** ** Concrete inputs *)

(** The 18 x 20 arena with every cell open. *)
Definition open_board : board := repeat (repeat OPEN 20) 18.

(** A state whose opponent position is off the board: [board[30]] raises
    [IndexError] when the opponent's cell is marked. *)
Definition state_opp_off_board : game_state :=
  {| gs_board := open_board; gs_you := (5, 5); gs_opp := (30, 30); gs_opp_dir := None |}.

Definition state_corner : game_state :=
  {| gs_board := open_board; gs_you := (0, 0); gs_opp := (10, 10); gs_opp_dir := None |}.

Definition state_open : game_state :=
  {| gs_board := open_board; gs_you := (5, 5); gs_opp := (10, 10);
     gs_opp_dir := Some "DOWN"%string |}.

(** The BFS depth recorded at [dist_map[i][j]] ([None] off the map). *)
Definition dist_at (dm : dist_map) (i j : nat) : option nat :=
  match dm !! i with
  | Some row => match row !! j with Some x => x | None => None end
  | None => None
  end.

Definition is_reached (dm : dist_map) (ij : nat * nat) : bool :=
  match dist_at dm ij.1 ij.2 with Some _ => true | None => false end.

(** Reached by both, the opponent no later than the agent. *)
Definition is_contested (dy dopp : dist_map) (ij : nat * nat) : bool :=
  match dist_at dy ij.1 ij.2, dist_at dopp ij.1 ij.2 with
  | Some a, Some b' => Nat.leb b' a
  | _, _ => false
  end.

(** ** The caller's board as Python objects *)

(** [heuristic_score] at the level of Python objects: the caller's board is
    an outer list object whose items are row list objects (rows may be
    shared), [deepcopy] copies it with its memo, the two item assignments
    mutate the copy, and the read-only code after them runs on the board
    value read back from the copy.  The rest of the state ([you], [opp],
    the opponent's direction) is made of immutable values. *)
Module Heap.

Definition loc : Type := positive.

Inductive obj : Type :=
  | OOuter (rows : list loc)
  | ORow (cells : list string).

Abbreviation heap := (gmap loc obj).

(** State and exceptions: the store persists when an exception is raised. *)
Definition M (A : Type) : Type := heap -> heap * res A.

Definition ret {A} (x : A) : M A := fun h => (h, Ok x).

Definition bindM {A B} (m : M A) (k : A -> M B) : M B :=
  fun h => let '(h1, r) := m h in
           match r with Ok x => k x h1 | Err e => (h1, Err e) end.

Definition lift {A} (r : res A) : M A := fun h => (h, r).

Notation "x <-- m ;; k" := (bindM m (fun x => k))
  (at level 100, m at next level, right associativity).

(** A lookup that finds no list of strings (or no list of rows) is outside
    the board data model; it is reported as [ValueError]. *)
Definition cells_of (h : heap) (r : loc) : option (list string) :=
  match h !! r with Some (ORow cells) => Some cells | _ => None end.

Definition rows_of (h : heap) (l : loc) : option (list loc) :=
  match h !! l with Some (OOuter rows) => Some rows | _ => None end.

Definition load_row (r : loc) : M (list string) :=
  fun h => (h, of_option ValueError (cells_of h r)).

Definition load_outer (l : loc) : M (list loc) :=
  fun h => (h, of_option ValueError (rows_of h l)).

Definition store (l : loc) (o : obj) : M unit := fun h => (<[l := o]> h, Ok tt).

Definition alloc (o : obj) : M loc :=
  fun h => let l := fresh (dom h) in (<[l := o]> h, Ok l).

Fixpoint read_rows (h : heap) (rows : list loc) : res board :=
  match rows with
  | [] => Ok []
  | r :: rs =>
      let* cells := of_option ValueError (cells_of h r) in
      let* b := read_rows h rs in
      Ok (cells :: b)
  end.

(** The board value an outer list object denotes. *)
Definition read_board (h : heap) (l : loc) : res board :=
  let* rows := of_option ValueError (rows_of h l) in read_rows h rows.

Definition read (l : loc) : M board := fun h => (h, read_board h l).

(** [copy.deepcopy] of a list of rows: a row already in the memo is shared,
    any other row gets a fresh copy, in the order of the list. *)
Fixpoint deepcopy_rows (memo : gmap loc loc) (rows : list loc)
    : M (gmap loc loc * list loc) :=
  match rows with
  | [] => ret (memo, [])
  | r :: rs =>
      match memo !! r with
      | Some r' =>
          p <-- deepcopy_rows memo rs ;;
          ret (p.1, r' :: p.2)
      | None =>
          cells <-- load_row r ;;
          r' <-- alloc (ORow cells) ;;
          p <-- deepcopy_rows (<[r := r']> memo) rs ;;
          ret (p.1, r' :: p.2)
      end
  end.

Definition deepcopy_board (bl : loc) : M loc :=
  rows <-- load_outer bl ;;
  c <-- alloc (OOuter []) ;;
  p <-- deepcopy_rows {[bl := c]} rows ;;
  _ <-- store c (OOuter p.2) ;;
  ret c.

(** [board[i][j] = x] *)
Definition setitem2 (l : loc) (i j : Z) (x : string) : M unit :=
  rows <-- load_outer l ;;
  r <-- lift (py_get rows i) ;;
  cells <-- load_row r ;;
  cells' <-- lift (py_set cells j x) ;;
  store r (ORow cells').

Definition heuristic_score_heap (bl : loc) (you opp : pos) (opp_dir : option string)
    (mv : dir) : M Q :=
  board <-- deepcopy_board bl ;;
  b <-- read board ;;
  sm <-- lift (simulate_move b you mv) ;;
  if sm.2 then ret W_FATAL
  else
    _ <-- setitem2 board you.1 you.2 WALL ;;
    _ <-- setitem2 board opp.1 opp.2 WALL ;;
    b2 <-- read board ;;
    lift (score_tail b2 sm.1 opp opp_dir).

(** The same steps on a store of rows indexed by the caller's row objects:
    what the copy holds, named by the objects it was copied from. *)
Definition row_store : Type := loc -> option (list string).

Definition upd (rs : row_store) (r : loc) (cells : list string) : row_store :=
  fun r' => if decide (r' = r) then Some cells else rs r'.

Fixpoint abs_read (rows : list loc) (rs : row_store) : res board :=
  match rows with
  | [] => Ok []
  | r :: rows' =>
      let* cells := of_option ValueError (rs r) in
      let* b := abs_read rows' rs in
      Ok (cells :: b)
  end.

Definition abs_set2 (rows : list loc) (rs : row_store) (i j : Z) (x : string)
    : res row_store :=
  let* r := py_get rows i in
  let* cells := of_option ValueError (rs r) in
  let* cells' := py_set cells j x in
  Ok (upd rs r cells').

Definition abs_score (rows : list loc) (rs : row_store) (you opp : pos)
    (opp_dir : option string) (mv : dir) : res Q :=
  let* b := abs_read rows rs in
  let* sm := simulate_move b you mv in
  if sm.2 then Ok W_FATAL
  else
    let* rs1 := abs_set2 rows rs you.1 you.2 WALL in
    let* rs2 := abs_set2 rows rs1 opp.1 opp.2 WALL in
    let* b2 := abs_read rows rs2 in
    score_tail b2 sm.1 opp opp_dir.

(** A caller's board built as [[[" "] * 20] * 18]: the outer list object
    [1] holds the same row object [2] eighteen times. *)
Definition demo_heap : heap :=
  <[1%positive := OOuter (repeat 2%positive 18)]> (<[2%positive := ORow (repeat OPEN 20)]> ∅).

End Heap.

(** ** board.py: [neighbors] *)

Fixpoint neighbors_loop (r c : Z) (ds : list dir) : list pos :=
  match ds with
  | [] => []
  | d :: ds' =>
      let '(dr, dc) := DELTAS d in
      let nr := r + dr in
      let nc := c + dc in
      if inb nr nc then (nr, nc) :: neighbors_loop r c ds'
      else neighbors_loop r c ds'
  end.

Definition neighbors (r c : Z) : list pos := neighbors_loop r c DIRS.

(** ** heuristic.py: [manhattan] *)

Definition manhattan (a b : pos) : Z := Z.abs (a.1 - b.1) + Z.abs (a.2 - b.2).

(** ** play_vs_agent.py *)

(** [move_player]: the board is a list of distinct row lists
    ([make_board]); the assignment [board[pos[0]][pos[1]] = WALL] mutates
    the caller's board, which is returned beside the result pair. *)
Definition move_player (b : board) (p : pos) (mv : dir) : res (board * (pos * bool)) :=
  let '(nr, nc) := step p mv in
  if negb (inb nr nc) then Ok (b, (p, true))
  else
    let* v := cell b nr nc in
    if String.eqb v WALL then Ok (b, (p, true))
    else
      let* b' := py_set2 b p.1 p.2 WALL in
      Ok (b', ((nr, nc), false)).

(** The AI's choice in [main]: [valid_ai_moves] (the [is_valid_move] of
    play_vs_agent.py is the one of search.py, with [WALL = "X"]) on the
    board itself; [None] when it is empty (the game ends there); otherwise
    [max(valid_ai_moves, key=lambda m: heuristic_score(state_ai, m))],
    whose keys are computed in list order and whose first maximal element
    wins, as in [py_max]. *)
Definition ai_move (st : game_state) : res (option dir) :=
  let* valid := filter_valid (gs_board st) (gs_you st) MOVES in
  match valid with
  | [] => Ok None
  | _ :: _ =>
      let* scores := score_all st valid in
      let* m := py_max scores in
      Ok (Some m)
  end.

(** ** The state dictionary read by agent.py *)

(** The keys that [choose_move] and [heuristic_score] read from the
    decoded JSON object; [None] is a missing key.  The opponent's last
    direction is read with [state.get(..., "UP")]. *)
Record json_state : Type := {
  js_board : option board;
  js_you : option pos;
  js_opponent : option pos;
  js_opp_dir : option string
}.

Inductive jexn : Type :=
  | KeyError (k : string)
  | PyError (e : exn).

Inductive jres (A : Type) : Type :=
  | JOk (a : A)
  | JRaise (e : jexn).
Arguments JOk {A} a.
Arguments JRaise {A} e.

Definition jbind {A B} (m : jres A) (k : A -> jres B) : jres B :=
  match m with
  | JOk a => k a
  | JRaise e => JRaise e
  end.

Notation "'let+' x ':=' m 'in' k" := (jbind m (fun x => k))
  (at level 200, x name, m at level 100, k at level 200).

Definition jlift {A} (r : res A) : jres A :=
  match r with
  | Ok a => JOk a
  | Err e => JRaise (PyError e)
  end.

(** [state[k]] *)
Definition getkey {A} (k : string) (o : option A) : jres A :=
  match o with
  | Some a => JOk a
  | None => JRaise (KeyError k)
  end.

(** [heuristic_score(state, move)]: the three subscripts come first. *)
Definition heuristic_score_json (js : json_state) (mv : dir) : jres Q :=
  let+ b := getkey "board" (js_board js) in
  let+ you := getkey "you" (js_you js) in
  let+ opp := getkey "opponent" (js_opponent js) in
  jlift (heuristic_score {| gs_board := b; gs_you := you; gs_opp := opp;
                            gs_opp_dir := js_opp_dir js |} mv).

Fixpoint score_all_json (js : json_state) (ms : list dir) : jres (list (dir * Q)) :=
  match ms with
  | [] => JOk []
  | m :: ms' =>
      let+ s := heuristic_score_json js m in
      let+ rest := score_all_json js ms' in
      JOk ((m, s) :: rest)
  end.

(** [choose_move(state)] *)
Definition choose_move_json (js : json_state) (rnd : dir) : jres dir :=
  let+ b0 := getkey "board" (js_board js) in
  let+ b := jlift (np_array_u1 b0) in
  let+ you := getkey "you" (js_you js) in
  let+ valid_moves := jlift (filter_valid b you MOVES) in
  match valid_moves with
  | [] => JOk rnd
  | _ :: _ =>
      let+ scores := score_all_json js valid_moves in
      jlift (py_max scores)
  end.

(** One tick of agent.py's [main] on a decoded state: any exception of
    [choose_move] gives ["UP"]. *)
Definition agent_tick_json (js : json_state) (rnd : dir) : string :=
  let move := match choose_move_json js rnd with
              | JOk m => dir_name m
              | JRaise _ => "UP"
              end in
  sanitize_move move.

(** ** case_closed_game.py *)

Module CaseClosed.

Definition EMPTY : Z := 0.
Definition AGENT : Z := 1.

(** [GameBoard] is only built with its defaults: [grid[y][x]] over
    [height] rows of [width] cells, rows being distinct lists. *)
Definition height : Z := 18.
Definition width : Z := 20.

Abbreviation grid := (list (list Z)).

Definition new_grid : grid :=
  map (fun _ => map (fun _ => EMPTY) (seq 0 (Z.to_nat width))) (seq 0 (Z.to_nat height)).

(** [_torus_check]: Python's [%] with a positive modulus is [Z.modulo]. *)
Definition torus_check (p : Z * Z) : Z * Z := (p.1 mod width, p.2 mod height).

Definition get_cell_state (g : grid) (p : Z * Z) : res Z :=
  let '(x, y) := torus_check p in py_get2 g y x.

Definition set_cell_state (g : grid) (p : Z * Z) (s : Z) : res grid :=
  let '(x, y) := torus_check p in py_set2 g y x s.

Module Direction.

Inductive t : Type := UP | DOWN | RIGHT | LEFT.

Definition value (d : t) : Z * Z :=
  match d with
  | UP => (0, -1)
  | DOWN => (0, 1)
  | RIGHT => (1, 0)
  | LEFT => (-1, 0)
  end.

End Direction.

Inductive GameResult : Type := AGENT1_WIN | AGENT2_WIN | DRAW.

(** An [Agent] without its [board] attribute: the one [GameBoard] both
    agents share is passed and returned explicitly. *)
Record Agent : Type := {
  agent_id : Z;
  trail : list (Z * Z);
  direction : Direction.t;
  alive : bool;
  agent_length : Z;
  boosts_remaining : Z
}.

Definition set_direction (a : Agent) (d : Direction.t) : Agent :=
  {| agent_id := agent_id a; trail := trail a; direction := d; alive := alive a;
     agent_length := agent_length a; boosts_remaining := boosts_remaining a |}.

Definition kill (a : Agent) : Agent :=
  {| agent_id := agent_id a; trail := trail a; direction := direction a; alive := false;
     agent_length := agent_length a; boosts_remaining := boosts_remaining a |}.

Definition use_one_boost (a : Agent) : Agent :=
  {| agent_id := agent_id a; trail := trail a; direction := direction a; alive := alive a;
     agent_length := agent_length a; boosts_remaining := boosts_remaining a - 1 |}.

(** [self.trail.append(new_head)] and [self.length += 1]. *)
Definition extend (a : Agent) (p : Z * Z) : Agent :=
  {| agent_id := agent_id a; trail := trail a ++ [p]; direction := direction a;
     alive := alive a; agent_length := agent_length a + 1;
     boosts_remaining := boosts_remaining a |}.

(** [Agent.__init__] *)
Definition new_agent (id : Z) (start_pos : Z * Z) (start_dir : Direction.t) (g : grid)
    : res (grid * Agent) :=
  let second := (start_pos.1 + (Direction.value start_dir).1,
                 start_pos.2 + (Direction.value start_dir).2) in
  let a := {| agent_id := id; trail := [start_pos; second]; direction := start_dir;
              alive := true; agent_length := 2; boosts_remaining := 3 |} in
  let* g1 := set_cell_state g start_pos AGENT in
  let* g2 := set_cell_state g1 second AGENT in
  Ok (g2, a).

(** [is_head] *)
Definition is_head (a : Agent) (p : Z * Z) : res bool :=
  let* h := py_get (trail a) (-1) in Ok (bool_decide (p = h)).

(** The outcome of one pass of the [for] loop of [move]: on to the next
    pass, or [return False]. *)
Inductive iter_out : Type :=
  | Continue (g : grid) (self other : Agent)
  | ReturnFalse (g : grid) (self other : Agent).

Definition move_iter (g : grid) (self other : Agent) (d : Direction.t) : res iter_out :=
  let '(cur_dx, cur_dy) := Direction.value (direction self) in
  let '(req_dx, req_dy) := Direction.value d in
  if bool_decide ((req_dx, req_dy) = (- cur_dx, - cur_dy)) then Ok (Continue g self other)
  else
    let* head := py_get (trail self) (-1) in
    let '(dx, dy) := Direction.value d in
    let new_head := torus_check (head.1 + dx, head.2 + dy) in
    let* cell_state := get_cell_state g new_head in
    let self := set_direction self d in
    if (cell_state =? AGENT) && bool_decide (new_head ∈ trail self) then
      Ok (ReturnFalse g (kill self) other)
    else if (cell_state =? AGENT) && alive other && bool_decide (new_head ∈ trail other) then
      let* h := is_head other new_head in
      if h then Ok (ReturnFalse g (kill self) (kill other))
      else Ok (ReturnFalse g (kill self) other)
    else
      let self := extend self new_head in
      let* g' := set_cell_state g new_head AGENT in
      Ok (Continue g' self other).

Fixpoint move_loop (n : nat) (g : grid) (self other : Agent) (d : Direction.t)
    : res (grid * Agent * Agent * bool) :=
  match n with
  | O => Ok (g, self, other, true)
  | S n' =>
      let* o := move_iter g self other d in
      match o with
      | Continue g' self' other' => move_loop n' g' self' other' d
      | ReturnFalse g' self' other' => Ok (g', self', other', false)
      end
  end.

(** [Agent.move]: returns the board, [self], [other_agent] (of which only
    [alive] may change) and the result. *)
Definition move (g : grid) (self other : Agent) (d : Direction.t) (use_boost : bool)
    : res (grid * Agent * Agent * bool) :=
  if negb (alive self) then Ok (g, self, other, false)
  else
    let use_boost := if use_boost && (boosts_remaining self <=? 0) then false else use_boost in
    let num_moves := if use_boost then 2%nat else 1%nat in
    let self := if use_boost then use_one_boost self else self in
    move_loop num_moves g self other d.

Record Game : Type := {
  game_board : grid;
  agent1 : Agent;
  agent2 : Agent;
  turns : Z
}.

(** [Game.__init__] *)
Definition new_game : res Game :=
  let* r1 := new_agent 1 (1, 2) Direction.RIGHT new_grid in
  let '(g1, a1) := r1 in
  let* r2 := new_agent 2 (17, 15) Direction.LEFT g1 in
  let '(g2, a2) := r2 in
  Ok {| game_board := g2; agent1 := a1; agent2 := a2; turns := 0 |}.

(** [Game.step] *)
Definition step (gm : Game) (dir1 dir2 : Direction.t) (boost1 boost2 : bool)
    : res (Game * option GameResult) :=
  if 200 <=? turns gm then
    let l1 := agent_length (agent1 gm) in
    let l2 := agent_length (agent2 gm) in
    Ok (gm, Some (if l2 <? l1 then AGENT1_WIN else if l1 <? l2 then AGENT2_WIN else DRAW))
  else
    let* r1 := move (game_board gm) (agent1 gm) (agent2 gm) dir1 boost1 in
    let '(g1, a1, a2, agent_one_alive) := r1 in
    let* r2 := move g1 a2 a1 dir2 boost2 in
    let '(g2, a2', a1', agent_two_alive) := r2 in
    let gm' := {| game_board := g2; agent1 := a1'; agent2 := a2'; turns := turns gm + 1 |} in
    Ok (gm', if negb agent_one_alive && negb agent_two_alive then Some DRAW
             else if negb agent_one_alive then Some AGENT2_WIN
             else if negb agent_two_alive then Some AGENT1_WIN
             else None).

Fixpoint res_map {A B} (f : A -> res B) (l : list A) : res (list B) :=
  match l with
  | [] => Ok []
  | x :: l' =>
      let* y := f x in
      let* ys := res_map f l' in
      Ok (y :: ys)
  end.

Definition range (n : Z) : list Z := map Z.of_nat (seq 0 (Z.to_nat n)).

(** [build_state] followed by [json.dumps] and agent.py's [json.loads]:
    the dictionary has the keys ["board"], ["you"] and ["turn"] (which no
    reader uses); there is no ["opponent"] key. *)
Definition build_state (gm : Game) : res json_state :=
  let* board_matrix :=
    res_map (fun y =>
      res_map (fun x =>
        let* val := py_get2 (game_board gm) y x in
        Ok (if val =? 0 then "."%string else "X"%string)) (range width)) (range height) in
  let* you_pos := py_get (trail (agent1 gm)) (-1) in
  Ok {| js_board := Some board_matrix; js_you := Some (you_pos.2, you_pos.1);
        js_opponent := None; js_opp_dir := None |}.

(** [MOVE_MAP], with [RIGHT] for any other answer. *)
Definition move_of_answer (s : string) : Direction.t :=
  if String.eqb s "UP" then Direction.UP
  else if String.eqb s "DOWN" then Direction.DOWN
  else if String.eqb s "LEFT" then Direction.LEFT
  else if String.eqb s "RIGHT" then Direction.RIGHT
  else Direction.RIGHT.

(** One turn of [main]: the state goes to agent.py, whose answer (read
    back with [strip], which leaves it as it is) moves agent 1, while
    agent 2 always goes [LEFT], without boosts. [rnd] is agent.py's
    [random.choice(MOVES)]. *)
Definition sim_turn (gm : Game) (rnd : dir) : res (Game * option GameResult) :=
  let* js := build_state gm in
  let move := agent_tick_json js rnd in
  step gm (move_of_answer move) Direction.LEFT false false.

(** The [while True] loop of [main], with [fuel] turns at most; [rnds]
    gives the random choice of each turn. It stops on the first result. *)
Fixpoint sim_loop (fuel : nat) (rnds : nat -> dir) (gm : Game) : res (Game * GameResult) :=
  match fuel with
  | O => Err FuelExhausted
  | S f =>
      let* r := sim_turn gm (rnds (Z.to_nat (turns gm))) in
      match r with
      | (gm', Some result) => Ok (gm', result)
      | (gm', None) => sim_loop f rnds gm'
      end
  end.

(** A position of the board, as [_torus_check] returns them. *)
Definition on_board (p : Z * Z) : Prop := 0 <= p.1 < width /\ 0 <= p.2 < height.

Definition grid_ok (g : grid) : Prop :=
  length g = Z.to_nat height /\ Forall (fun row => length row = Z.to_nat width) g.

(** The bookkeeping of an agent: [length] counts the trail, the trail has
    no repeated cell, each of its cells is on the board and marked [AGENT],
    and [0 <= boosts_remaining <= 3]. *)
Definition agent_ok (g : grid) (a : Agent) : Prop :=
  agent_length a = Z.of_nat (length (trail a)) /\
  NoDup (trail a) /\
  (forall p, p ∈ trail a -> on_board p /\ get_cell_state g p = Ok AGENT) /\
  0 <= boosts_remaining a <= 3.

(** Games reachable from [Game()] by [step]. *)
Inductive reachable : Game -> Prop :=
  | game_init gm : new_game = Ok gm -> reachable gm
  | game_step gm gm' d1 d2 b1 b2 r :
      reachable gm -> step gm d1 d2 b1 b2 = Ok (gm', r) -> reachable gm'.

End CaseClosed.

(** Boards whose cells are strings of one character, which
    [np.array(..., dtype='U1')] keeps as they are. *)
Definition one_char_cells (b : board) : Prop :=
  Forall (Forall (fun s => String.length s = 1%nat)) b.

(** * Proofs *)

(** ** Python indexing *)

Lemma py_index_lt n i k : py_index n i = Some k -> (k < n)%nat.
Proof.
  unfold py_index. intros E.
  destruct ((0 <=? i) && (i <? Z.of_nat n)) eqn:E1.
  - apply andb_prop in E1 as [E1 E2]. apply Z.leb_le in E1. apply Z.ltb_lt in E2.
    injection E as <-. lia.
  - destruct ((- Z.of_nat n <=? i) && (i <? 0)) eqn:E2; [|discriminate].
    apply andb_prop in E2 as [E2 E3]. apply Z.leb_le in E2. apply Z.ltb_lt in E3.
    injection E as <-. lia.
Qed.

Lemma py_index_nonneg n i :
  (0 <= i < Z.of_nat n)%Z -> py_index n i = Some (Z.to_nat i).
Proof.
  intros Hi. unfold py_index.
  replace ((0 <=? i) && (i <? Z.of_nat n)) with true; [reflexivity|].
  symmetry. apply andb_true_intro. split; [apply Z.leb_le | apply Z.ltb_lt]; lia.
Qed.

Lemma py_get_elem {A} (l : list A) i x : py_get l i = Ok x -> x ∈ l.
Proof.
  unfold py_get. destruct (py_index (length l) i) as [k|]; [|discriminate].
  destruct (l !! k) eqn:E; simpl; [|discriminate].
  intros [= <-]. by eapply list_elem_of_lookup_2.
Qed.

Lemma py_get_err {A} (l : list A) i e : py_get l i = Err e -> e = IndexError.
Proof.
  unfold py_get. destruct (py_index (length l) i) as [k|]; [|congruence].
  destruct (l !! k); simpl; congruence.
Qed.

Lemma py_set_length {A} (l l' : list A) i x : py_set l i x = Ok l' -> length l' = length l.
Proof.
  unfold py_set. destruct (py_index (length l) i); [|discriminate].
  intros [= <-]. apply length_insert.
Qed.

Lemma py_get_set_same {A} (l l' : list A) i x : py_set l i x = Ok l' -> py_get l' i = Ok x.
Proof.
  unfold py_set, py_get. destruct (py_index (length l) i) as [k|] eqn:E; [|discriminate].
  intros [= <-]. rewrite length_insert, E. apply py_index_lt in E.
  by rewrite list_lookup_insert_eq.
Qed.

Lemma cell_set2_same {A} (l l' : list (list A)) i j x :
  py_set2 l i j x = Ok l' -> py_get2 l' i j = Ok x.
Proof.
  unfold py_set2, py_get2.
  destruct (py_get l i) as [row|] eqn:E1; simpl; [|discriminate].
  destruct (py_set row j x) as [row'|] eqn:E2; simpl; [|discriminate].
  intros E3. rewrite (py_get_set_same _ _ _ _ E3). simpl.
  exact (py_get_set_same _ _ _ _ E2).
Qed.

Lemma cell_err b r c e : cell b r c = Err e -> e = IndexError.
Proof.
  unfold cell, py_get2.
  destruct (py_get b r) as [row|] eqn:E; simpl.
  - apply py_get_err.
  - intros [= <-]. exact (py_get_err _ _ _ E).
Qed.

Lemma cell_elem b r c v : cell b r c = Ok v -> exists row, row ∈ b /\ v ∈ row.
Proof.
  unfold cell, py_get2.
  destruct (py_get b r) as [row|] eqn:E; simpl; [|discriminate].
  intros Hv. exists row. split; [exact (py_get_elem _ _ _ E) | exact (py_get_elem _ _ _ Hv)].
Qed.

Lemma inb_spec r c : inb r c = true <-> (0 <= r < 18 /\ 0 <= c < 20)%Z.
Proof.
  unfold inb, H, W. rewrite !andb_true_iff, !Z.leb_le, !Z.ltb_lt. tauto.
Qed.

Lemma shape_cell b r c :
  board_shape b = true -> inb r c = true -> exists v, cell b r c = Ok v.
Proof.
  unfold board_shape. intros Hs Hrc. apply andb_prop in Hs as [Hl Hrows].
  apply Nat.eqb_eq in Hl. apply inb_spec in Hrc as [Hr Hc].
  rewrite forallb_forall in Hrows.
  unfold cell, py_get2, py_get.
  rewrite (py_index_nonneg (length b) r) by lia.
  destruct (lookup_lt_is_Some_2 b (Z.to_nat r)) as [row Hrow]; [lia|].
  rewrite Hrow. simpl.
  assert (Hlen : length row = 20%nat).
  { apply Nat.eqb_eq, Hrows. apply list_elem_of_In. by eapply list_elem_of_lookup_2. }
  rewrite (py_index_nonneg (length row) c) by lia.
  destruct (lookup_lt_is_Some_2 row (Z.to_nat c)) as [v Hv]; [lia|].
  rewrite Hv. eauto.
Qed.

Lemma shape_row0 b : board_shape b = true -> exists row, py_get b 0 = Ok row.
Proof.
  unfold board_shape. intros Hs. apply andb_prop in Hs as [Hl _].
  apply Nat.eqb_eq in Hl. unfold py_get.
  rewrite (py_index_nonneg (length b) 0) by lia.
  destruct (lookup_lt_is_Some_2 b 0) as [row Hrow]; [lia|].
  change (Z.to_nat 0) with 0%nat. rewrite Hrow. eauto.
Qed.

(** Peel the successful [let*] steps off a hypothesis [_ = Ok _]. *)
Lemma rbind_Ok {A B} (a : A) (f : A -> res B) : rbind (Ok a) f = f a.
Proof. reflexivity. Qed.

Lemma rbind_Err {A B} (e : exn) (f : A -> res B) : rbind (Err e) f = Err e.
Proof. reflexivity. Qed.

(** Like [inv_ok], but steps [rbind] by rewriting: the kernel then never
    compares an [rbind] against a loop it would have to unroll. *)
Ltac inv_okr H :=
  repeat match type of H with
  | rbind ?m _ = Ok _ =>
      let E := fresh "E" in
      let x := fresh "x" in
      remember m as x eqn:E in H; symmetry in E;
      destruct x; [rewrite rbind_Ok in H | rewrite rbind_Err in H; discriminate H]
  end.

Ltac inv_ok H :=
  repeat match type of H with
  | rbind ?m _ = Ok _ =>
      let E := fresh "E" in
      let x := fresh "x" in
      remember m as x eqn:E in H; symmetry in E;
      destruct x; cbn [rbind] in H; [|discriminate H]
  end.

Lemma step_pair r c d dr dc : DELTAS d = (dr, dc) -> step (r, c) d = (r + dr, c + dc).
Proof. unfold step. intros ->. reflexivity. Qed.

(** ** legal_moves *)

Lemma legal_moves_loop_sound b r c l ds d :
  legal_moves_loop b r c l = Ok ds -> d ∈ ds ->
  d ∈ l /\ inbp (step (r, c) d) = true /\
  cell b (step (r, c) d).1 (step (r, c) d).2 = Ok OPEN.
Proof.
  revert ds. induction l as [|d' l IH]; intros ds Hl Hd; simpl in Hl.
  - injection Hl as <-. by apply elem_of_nil in Hd.
  - destruct (DELTAS d') as [dr dc] eqn:HD.
    destruct (inb (r + dr) (c + dc)) eqn:Hin.
    + inv_ok Hl. injection Hl as <-.
      destruct (String.eqb a OPEN) eqn:Ho.
      * apply elem_of_cons in Hd as [->|Hd].
        -- apply String.eqb_eq in Ho as ->.
           rewrite (step_pair _ _ _ _ _ HD). unfold inbp. simpl.
           split; [left | split; assumption].
        -- destruct (IH _ E0 Hd) as (Hl' & ?). split; [right|]; auto.
      * destruct (IH _ E0 Hd) as (Hl' & ?). split; [right|]; auto.
    + destruct (IH _ Hl Hd) as (Hl' & ?). split; [right|]; auto.
Qed.

Lemma cell_open_or_wall b r c v : open_or_wall b -> cell b r c = Ok v -> v = OPEN \/ v = WALL.
Proof.
  intros Hb Hv. destruct (cell_elem _ _ _ _ Hv) as (row & Hrow & Hvr).
  unfold open_or_wall in Hb. rewrite Forall_forall in Hb.
  specialize (Hb row Hrow).
  rewrite Forall_forall in Hb. apply Hb, Hvr.
Qed.

Lemma legal_moves_loop_valid b r c l ds :
  open_or_wall b -> NoDup l -> legal_moves_loop b r c l = Ok ds ->
  forall d, d ∈ l -> is_valid_move b (r, c) d = Ok (bool_decide (d ∈ ds)).
Proof.
  intros Hb. revert ds. induction l as [|d' l IH]; intros ds Hnd Hl d Hd.
  { by apply elem_of_nil in Hd. }
  apply NoDup_cons in Hnd as [Hnot Hnd]. simpl in Hl.
  destruct (DELTAS d') as [dr dc] eqn:HD.
  assert (Hsub : forall rest, legal_moves_loop b r c l = Ok rest -> d' ∉ rest).
  { intros rest Hr Hin. apply Hnot. exact (proj1 (legal_moves_loop_sound _ _ _ _ _ _ Hr Hin)). }
  destruct (inb (r + dr) (c + dc)) eqn:Hin.
  - inv_ok Hl. rename a into v, a0 into rest. injection Hl as <-.
    apply elem_of_cons in Hd as [->|Hd].
    + unfold is_valid_move. rewrite (step_pair _ _ _ _ _ HD), Hin, E. cbn [rbind].
      destruct (cell_open_or_wall _ _ _ _ Hb E) as [-> | ->]; simpl.
      * f_equal. symmetry. apply bool_decide_eq_true. left.
      * f_equal. symmetry. apply bool_decide_eq_false. exact (Hsub _ E0).
    + assert (d <> d') by (intros ->; contradiction).
      rewrite (IH _ Hnd E0 d Hd). f_equal. apply bool_decide_ext.
      destruct (String.eqb v OPEN); [rewrite elem_of_cons|]; tauto.
  - apply elem_of_cons in Hd as [->|Hd].
    + unfold is_valid_move. rewrite (step_pair _ _ _ _ _ HD), Hin.
      f_equal. symmetry. apply bool_decide_eq_false. exact (Hsub _ Hl).
    + exact (IH _ Hnd Hl d Hd).
Qed.

Lemma DIRS_complete d : d ∈ DIRS.
Proof. destruct d; unfold DIRS; set_solver. Qed.

Lemma DIRS_NoDup : NoDup DIRS.
Proof. unfold DIRS. repeat constructor; set_solver. Qed.

(** C8: every direction [legal_moves] returns leads to an in-bounds OPEN
    cell, never out of bounds nor onto a WALL (the function only reads the
    board). *)
Theorem legal_moves_in_bounds_open (b : board) (p : pos) (ds : list dir) :
  legal_moves b p = Ok ds ->
  forall d, d ∈ ds ->
    inbp (step p d) = true /\
    cell b (step p d).1 (step p d).2 = Ok OPEN /\
    cell b (step p d).1 (step p d).2 <> Ok WALL.
Proof.
  destruct p as [r c]. unfold legal_moves. cbn [fst snd]. intros Hl d Hd.
  destruct (legal_moves_loop_sound _ _ _ _ _ _ Hl Hd) as (_ & Hin & Hc).
  split; [exact Hin|]. split; [exact Hc|]. rewrite Hc. discriminate.
Qed.

(** C10: on a board whose cells are all [" "] or ["X"], the legality test
    [is_valid_move] of search.py holds exactly for the directions that
    [legal_moves] of board.py returns. *)
Theorem is_valid_move_iff_legal (b : board) (p : pos) (d : dir) (ds : list dir) :
  open_or_wall b ->
  legal_moves b p = Ok ds ->
  is_valid_move b p d = Ok (bool_decide (d ∈ ds)).
Proof.
  destruct p as [r c]. unfold legal_moves. cbn [fst snd]. intros Hb Hl.
  exact (legal_moves_loop_valid _ _ _ _ _ Hb DIRS_NoDup Hl d (DIRS_complete d)).
Qed.

(** ** heuristic_score: fatal branches and the head-on flag *)

Lemma compute_parts_headon b ny opp od sp :
  compute_parts b ny opp od = Ok sp -> sp_headon sp = bool_decide (ny = opp).
Proof.
  unfold compute_parts. intros Hc. inv_ok Hc.
  destruct (match dir_of_string (default "UP" od) with
            | Some d => DELTAS d | None => (0, 0) end) as [dr dc].
  inv_ok Hc. injection Hc as <-. reflexivity.
Qed.

(** The shape of a non-fatal result: the candidate passed [simulate_move],
    both agents were marked, the destination re-check passed and the score
    is the aggregation of [compute_parts]. *)
Lemma heuristic_score_cases st mv s :
  heuristic_score st mv = Ok s ->
  s = W_FATAL \/
  exists ny b1 b2 sp,
    simulate_move (gs_board st) (gs_you st) mv = Ok (ny, false) /\
    py_set2 (gs_board st) (gs_you st).1 (gs_you st).2 WALL = Ok b1 /\
    py_set2 b1 (gs_opp st).1 (gs_opp st).2 WALL = Ok b2 /\
    inbp ny = true /\
    (exists v, cell b2 ny.1 ny.2 = Ok v /\ String.eqb v WALL = false) /\
    compute_parts b2 ny (gs_opp st) (gs_opp_dir st) = Ok sp /\
    s = aggregate sp.
Proof.
  unfold heuristic_score. intros Hs. inv_ok Hs. destruct a as [ny crash].
  destruct crash; [injection Hs as <-; left; reflexivity|].
  inv_ok Hs. unfold score_tail in Hs.
  destruct (inbp ny) eqn:Hin; [|injection Hs as <-; left; reflexivity].
  cbn [negb] in Hs. inv_ok Hs.
  destruct (String.eqb a1 WALL) eqn:Hw; [injection Hs as <-; left; reflexivity|].
  inv_ok Hs. injection Hs as <-. right.
  exists ny, a, a0, a2. repeat split; eauto.
Qed.

(** C9: a non-fatal score never comes from a head-on candidate: the new
    position differs from the opponent's, the head-on flag is false and
    [W_HEADON] contributes nothing, because the opponent's cell is marked
    as a wall before the destination is re-checked. *)
Theorem headon_flag_false_when_nonfatal (st : game_state) (mv : dir) (s : Q) :
  heuristic_score st mv = Ok s ->
  ~ (s == W_FATAL)%Q ->
  exists ny sp,
    simulate_move (gs_board st) (gs_you st) mv = Ok (ny, false) /\
    ny <> gs_opp st /\
    s = aggregate sp /\
    sp_headon sp = false /\
    (W_HEADON * Q_of_bool (sp_headon sp) == 0)%Q.
Proof.
  intros Hs Hne.
  destruct (heuristic_score_cases _ _ _ Hs)
    as [-> | (ny & b1 & b2 & sp & Hsm & H1 & H2 & Hin & (v & Hv & Hw) & Hsp & ->)].
  { exfalso. apply Hne. reflexivity. }
  assert (Hneq : ny <> gs_opp st).
  { intros ->. pose proof (cell_set2_same _ _ _ _ _ H2) as Hc.
    unfold cell in Hv. rewrite Hc in Hv. injection Hv as <-. discriminate Hw. }
  exists ny, sp. rewrite (compute_parts_headon _ _ _ _ _ Hsp), bool_decide_eq_false_2 by exact Hneq.
  repeat split; auto.
Qed.

(** ** choose_move *)

Lemma fold_max_step (l : list (dir * Q)) acc :
  let r := fold_left max_step l acc in
  (r = acc /\ forall y, y ∈ l -> (y.2 <= acc.2)%Q) \/
  (exists pre post, l = pre ++ r :: post /\ (acc.2 < r.2)%Q /\
     (forall y, y ∈ pre -> (y.2 < r.2)%Q) /\ (forall y, y ∈ post -> (y.2 <= r.2)%Q)).
Proof.
  revert acc. induction l as [|y l IH]; intros acc; cbn [fold_left].
  - left. split; [reflexivity|]. intros y Hy. by apply elem_of_nil in Hy.
  - destruct (Qle_bool y.2 acc.2) eqn:E.
    + assert (Hm : max_step acc y = acc) by (unfold max_step; by rewrite E).
      rewrite Hm. apply Qle_bool_iff in E.
      destruct (IH acc) as [[Hr Hall] | (pre & post & Hl & Hlt & Hpre & Hpost)].
      * left. split; [exact Hr|]. intros z Hz. apply elem_of_cons in Hz as [->|Hz]; auto.
      * right. exists (y :: pre), post. split; [simpl; f_equal; exact Hl|].
        split; [exact Hlt|]. split; [|exact Hpost].
        intros z Hz. apply elem_of_cons in Hz as [->|Hz]; [|auto].
        eapply Qle_lt_trans; eauto.
    + assert (Hm : max_step acc y = y) by (unfold max_step; by rewrite E).
      rewrite Hm.
      assert (Hlt : (acc.2 < y.2)%Q).
      { apply Qnot_le_lt. intros Hle. apply Qle_bool_iff in Hle. congruence. }
      right.
      destruct (IH y) as [[Hr Hall] | (pre & post & Hl & Hlt' & Hpre & Hpost)].
      * exists [], l. rewrite Hr. split; [reflexivity|]. split; [exact Hlt|].
        split; [intros z Hz; by apply elem_of_nil in Hz | exact Hall].
      * exists (y :: pre), post. split; [simpl; f_equal; exact Hl|].
        split; [eapply Qlt_trans; eauto|]. split; [|exact Hpost].
        intros z Hz. apply elem_of_cons in Hz as [->|Hz]; auto.
Qed.

Lemma py_max_spec x rest :
  exists pre r post, py_max (x :: rest) = Ok r.1 /\ x :: rest = pre ++ r :: post /\
    (forall y, y ∈ pre -> (y.2 < r.2)%Q) /\ (forall y, y ∈ post -> (y.2 <= r.2)%Q).
Proof.
  unfold py_max. destruct (fold_max_step rest x) as [[Hr Hall] | (pre & post & Hl & Hlt & Hpre & Hpost)].
  - exists [], x, rest. rewrite Hr. split; [reflexivity|]. split; [reflexivity|].
    split; [intros y Hy; by apply elem_of_nil in Hy | exact Hall].
  - exists (x :: pre), (fold_left max_step rest x), post.
    split; [reflexivity|]. rewrite Hl at 1. split; [reflexivity|]. split; [|exact Hpost].
    intros y Hy. apply elem_of_cons in Hy as [->|Hy]; auto.
Qed.

Lemma score_all_ok st ms :
  (forall m, m ∈ ms -> exists s, heuristic_score st m = Ok s) ->
  exists scores, score_all st ms = Ok scores.
Proof.
  induction ms as [|m ms IH]; intros Hall; simpl; [eauto|].
  destruct (Hall m (list_elem_of_here _ _)) as [s Hs]. rewrite Hs. cbn [rbind].
  destruct IH as [scores Hsc]; [intros m' Hm'; apply Hall; by apply list_elem_of_further|].
  rewrite Hsc. eauto.
Qed.

Lemma score_all_spec st ms scores :
  score_all st ms = Ok scores ->
  map fst scores = ms /\ (forall y, y ∈ scores -> heuristic_score st y.1 = Ok y.2).
Proof.
  revert scores. induction ms as [|m ms IH]; intros scores Hsc; simpl in Hsc.
  - injection Hsc as <-. split; [reflexivity|]. intros y Hy. by apply elem_of_nil in Hy.
  - inv_ok Hsc. injection Hsc as <-. destruct (IH _ E0) as [Hmap Hall].
    split; [simpl; by rewrite Hmap|].
    intros y Hy. apply elem_of_cons in Hy as [->|Hy]; auto.
Qed.

Definition rank_lt (x y : dir * Q) : Prop := (dir_rank x.1 < dir_rank y.1)%nat.

Lemma score_all_sorted st ms scores :
  score_all st ms = Ok scores ->
  StronglySorted (fun a b => dir_rank a < dir_rank b)%nat ms ->
  StronglySorted rank_lt scores.
Proof.
  revert scores. induction ms as [|m ms IH]; intros scores Hsc Hss; simpl in Hsc.
  - injection Hsc as <-. constructor.
  - inv_ok Hsc. injection Hsc as <-. apply StronglySorted_inv in Hss as [Hss Hf].
    constructor; [exact (IH _ E0 Hss)|].
    destruct (score_all_spec _ _ _ E0) as [Hmap _].
    rewrite Forall_forall in Hf. apply Forall_forall.
    intros y Hy. unfold rank_lt. simpl. apply Hf.
    rewrite <- Hmap. apply list_elem_of_In, in_map, list_elem_of_In, Hy.
Qed.

Lemma filter_valid_sub b p ms vs : filter_valid b p ms = Ok vs -> forall m, m ∈ vs -> m ∈ ms.
Proof.
  revert vs. induction ms as [|m ms IH]; intros vs Hf x Hx; simpl in Hf.
  - injection Hf as <-. by apply elem_of_nil in Hx.
  - inv_ok Hf. injection Hf as <-.
    destruct a; [apply elem_of_cons in Hx as [->|Hx]|]; [left | right; eauto | right; eauto].
Qed.

Lemma filter_valid_sorted b p ms vs :
  filter_valid b p ms = Ok vs ->
  StronglySorted (fun a b => dir_rank a < dir_rank b)%nat ms ->
  StronglySorted (fun a b => dir_rank a < dir_rank b)%nat vs.
Proof.
  revert vs. induction ms as [|m ms IH]; intros vs Hf Hss; simpl in Hf.
  - injection Hf as <-. constructor.
  - inv_ok Hf. injection Hf as <-. apply StronglySorted_inv in Hss as [Hss Hfa].
    destruct a; [|exact (IH _ E0 Hss)].
    constructor; [exact (IH _ E0 Hss)|].
    rewrite Forall_forall in Hfa |- *. intros x Hx.
    apply Hfa. exact (filter_valid_sub _ _ _ _ E0 x Hx).
Qed.

Lemma MOVES_sorted : StronglySorted (fun a b => dir_rank a < dir_rank b)%nat MOVES.
Proof. unfold MOVES. repeat constructor; simpl; lia. Qed.

Lemma sorted_after {A} (R : A -> A -> Prop) pre r post :
  StronglySorted R (pre ++ r :: post) -> forall y, y ∈ post -> R r y.
Proof.
  induction pre as [|a pre IH]; simpl; intros Hss y Hy.
  - apply StronglySorted_inv in Hss as [_ Hf]. rewrite Forall_forall in Hf. auto.
  - apply StronglySorted_inv in Hss as [Hss _]. eauto.
Qed.

(** C3: when the current position has a valid direction (and every valid
    direction scores), [choose_move] returns, whatever [random.choice]
    would draw, the valid direction of maximal score, the earliest in the
    order UP, DOWN, LEFT, RIGHT among those of maximal score. *)
Theorem choose_move_argmax_first (st : game_state) (rnd : dir) (b : board) (vs : list dir) :
  np_array_u1 (gs_board st) = Ok b ->
  filter_valid b (gs_you st) MOVES = Ok vs ->
  vs <> [] ->
  (forall m, m ∈ vs -> exists s, heuristic_score st m = Ok s) ->
  exists m s,
    choose_move st rnd = Ok m /\
    (forall rnd', choose_move st rnd' = Ok m) /\
    m ∈ vs /\ heuristic_score st m = Ok s /\
    (forall m' s', m' ∈ vs -> heuristic_score st m' = Ok s' -> (s' <= s)%Q) /\
    (forall m' s', m' ∈ vs -> heuristic_score st m' = Ok s' ->
       (dir_rank m' < dir_rank m)%nat -> (s' < s)%Q).
Proof.
  intros Hnp Hf Hne Hall.
  destruct (score_all_ok _ _ Hall) as [scores Hsc].
  destruct (score_all_spec _ _ _ Hsc) as [Hmap Hsc_ok].
  pose proof (score_all_sorted _ _ _ Hsc (filter_valid_sorted _ _ _ _ Hf MOVES_sorted)) as Hss.
  destruct scores as [|x rest]; [simpl in Hmap; subst vs; congruence|].
  destruct (py_max_spec x rest) as (pre & r & post & Hmax & Hsplit & Hpre & Hpost).
  assert (Hcm : forall rnd', choose_move st rnd' = Ok r.1).
  { intros rnd'. unfold choose_move. rewrite Hnp. cbn [rbind]. rewrite Hf. cbn [rbind].
    destruct vs as [|v vs']; [congruence|]. rewrite Hsc. cbn [rbind]. exact Hmax. }
  assert (Hr_in : r ∈ x :: rest) by (rewrite Hsplit; apply elem_of_app; right; left).
  exists r.1, r.2. split; [apply Hcm|]. split; [exact Hcm|].
  split; [rewrite <- Hmap; apply list_elem_of_In, in_map, list_elem_of_In, Hr_in|].
  split; [exact (Hsc_ok r Hr_in)|].
  assert (Hfind : forall m' s', m' ∈ vs -> heuristic_score st m' = Ok s' ->
            (m', s') ∈ pre ++ r :: post).
  { intros m' s' Hm' Hs'. rewrite <- Hsplit.
    rewrite <- Hmap in Hm'. apply list_elem_of_In, in_map_iff in Hm' as [[m'' s''] [Heq Hin]].
    simpl in Heq. subst m''. apply list_elem_of_In in Hin.
    pose proof (Hsc_ok _ Hin) as Hs''. simpl in Hs''. rewrite Hs' in Hs''.
    injection Hs'' as ->. exact Hin. }
  rewrite Hsplit in Hss.
  split.
  - intros m' s' Hm' Hs'. specialize (Hfind _ _ Hm' Hs').
    apply elem_of_app in Hfind as [Hy|Hy].
    + apply Qlt_le_weak. exact (Hpre _ Hy).
    + apply elem_of_cons in Hy as [<-|Hy]; [apply Qle_refl | exact (Hpost _ Hy)].
  - intros m' s' Hm' Hs' Hrank. specialize (Hfind _ _ Hm' Hs').
    apply elem_of_app in Hfind as [Hy|Hy]; [exact (Hpre _ Hy)|].
    apply elem_of_cons in Hy as [<-|Hy]; [simpl in Hrank; lia|].
    pose proof (sorted_after _ _ _ _ Hss _ Hy) as Hlt. unfold rank_lt in Hlt. simpl in Hlt. lia.
Qed.

Lemma score_all_err st pre m post e :
  (forall m', m' ∈ pre -> exists s, heuristic_score st m' = Ok s) ->
  heuristic_score st m = Err e ->
  score_all st (pre ++ m :: post) = Err e.
Proof.
  induction pre as [|m0 pre IH]; intros Hpre Hm; simpl.
  - rewrite Hm. reflexivity.
  - destruct (Hpre m0 (list_elem_of_here _ _)) as [s Hs]. rewrite Hs. cbn [rbind].
    rewrite IH; [reflexivity| |exact Hm].
    intros m' Hm'. apply Hpre. by apply list_elem_of_further.
Qed.

(** C2 (as amended): [choose_move] has no per-candidate exception handling.
    When scoring a valid candidate raises (the earlier valid candidates
    scoring normally), [choose_move] raises that same exception and no
    direction is selected; the fallback happens only in [agent.py]'s main
    loop, which catches the exception and prints UP. *)
Theorem choose_move_propagates_scoring_error (st : game_state) (rnd : dir) (b : board)
    (pre : list dir) (m : dir) (post : list dir) (e : exn) :
  np_array_u1 (gs_board st) = Ok b ->
  filter_valid b (gs_you st) MOVES = Ok (pre ++ m :: post) ->
  (forall m', m' ∈ pre -> exists s, heuristic_score st m' = Ok s) ->
  heuristic_score st m = Err e ->
  choose_move st rnd = Err e /\ agent_tick st rnd = "UP"%string.
Proof.
  intros Hnp Hf Hpre Hm.
  assert (Hc : choose_move st rnd = Err e).
  { unfold choose_move. rewrite Hnp. cbn [rbind]. rewrite Hf. cbn [rbind].
    destruct (pre ++ m :: post) as [|v vs] eqn:Hv.
    - exfalso. symmetry in Hv. by apply app_cons_not_nil in Hv.
    - rewrite <- Hv. rewrite (score_all_err _ _ _ _ _ Hpre Hm). reflexivity. }
  split; [exact Hc|]. unfold agent_tick. rewrite Hc. reflexivity.
Qed.

Lemma choose_move_propagates_scoring_error_witness :
  choose_move state_opp_off_board UP = Err IndexError /\
  agent_tick state_opp_off_board UP = "UP"%string.
Proof.
  apply (choose_move_propagates_scoring_error state_opp_off_board UP open_board
           [] UP [DOWN; LEFT; RIGHT] IndexError).
  - vm_compute. reflexivity.
  - vm_compute. reflexivity.
  - intros m' Hm'. by apply elem_of_nil in Hm'.
  - vm_compute. reflexivity.
Defined.

(** C2 does not hold as stated: at a state where every candidate's scoring
    raises [IndexError], [choose_move] raises it instead of scoring the
    candidates as fatal or returning a default direction. *)
Lemma choose_move_raises_cex :
  heuristic_score state_opp_off_board UP = Err IndexError /\
  heuristic_score state_opp_off_board DOWN = Err IndexError /\
  heuristic_score state_opp_off_board LEFT = Err IndexError /\
  heuristic_score state_opp_off_board RIGHT = Err IndexError /\
  choose_move state_opp_off_board UP = Err IndexError.
Proof. vm_compute. repeat split. Qed.

Lemma choose_move_argmax_first_witness :
  exists m s, choose_move state_open UP = Ok m /\ heuristic_score state_open m = Ok s.
Proof.
  destruct (choose_move_argmax_first state_open UP open_board [UP; DOWN; LEFT; RIGHT])
    as (m & s & Hc & _ & _ & Hs & _ & _).
  - vm_compute. reflexivity.
  - vm_compute. reflexivity.
  - discriminate.
  - intros m Hm. repeat (apply elem_of_cons in Hm as [->|Hm]);
      [eexists; vm_compute; reflexivity ..|by apply elem_of_nil in Hm].
  - exists m, s. split; assumption.
Defined.

Lemma legal_moves_in_bounds_open_witness :
  inbp (step (0, 0) DOWN) = true /\
  cell open_board (step (0, 0) DOWN).1 (step (0, 0) DOWN).2 = Ok OPEN /\
  cell open_board (step (0, 0) DOWN).1 (step (0, 0) DOWN).2 <> Ok WALL.
Proof.
  apply (legal_moves_in_bounds_open open_board (0, 0) [DOWN; RIGHT]).
  - vm_compute. reflexivity.
  - apply list_elem_of_here.
Defined.

Lemma headon_flag_false_when_nonfatal_witness :
  exists ny sp,
    simulate_move open_board (5, 5) UP = Ok (ny, false) /\ ny <> (10, 10) /\
    sp_headon sp = false.
Proof.
  destruct (headon_flag_false_when_nonfatal state_open UP (44995000000 # 38500000000))
    as (ny & sp & Hsm & Hne & _ & Hh & _).
  - vm_compute. reflexivity.
  - vm_compute. discriminate.
  - exists ny, sp. auto.
Defined.

Lemma is_valid_move_iff_legal_witness :
  is_valid_move open_board (0, 0) UP = Ok (bool_decide (UP ∈ [DOWN; RIGHT])).
Proof.
  apply (is_valid_move_iff_legal open_board (0, 0) UP [DOWN; RIGHT]).
  - unfold open_or_wall, open_board. repeat constructor.
  - vm_compute. reflexivity.
Defined.

(** ** The in-bounds cells *)

Lemma elem_of_all_cells p : p ∈ all_cells <-> inbp p = true.
Proof.
  unfold all_cells, inbp. rewrite elem_of_list_to_set, inb_spec.
  unfold cells_list. rewrite list_elem_of_In, in_flat_map. split.
  - intros (r & Hr & Hin). apply in_map_iff in Hin as (c & <- & Hc).
    apply in_seq in Hr, Hc. simpl. lia.
  - destruct p as [r c]. cbn [fst snd]. intros [Hr Hc].
    exists (Z.to_nat r). split; [apply (proj2 (in_seq _ _ _)); lia|].
    apply in_map_iff. exists (Z.to_nat c).
    split; [f_equal; lia | apply (proj2 (in_seq _ _ _)); lia].
Qed.

Lemma size_all_cells : size all_cells = 360%nat.
Proof. vm_compute. reflexivity. Qed.

Lemma reachable_start_open b s q :
  reachable b s q -> inbp s = true /\ cell b s.1 s.2 = Ok OPEN.
Proof. induction 1; auto. Qed.

(** ** flood_fill_area *)

Lemma ff_dirs_ok b r c ds seen stack :
  board_shape b = true ->
  exists seen' new,
    ff_dirs b r c ds seen stack = Ok (seen', new ++ stack) /\
    seen ⊆ seen' /\
    size seen' = (length new + size seen)%nat /\
    (forall q, q ∈ new -> q ∈ seen') /\
    (forall q, q ∈ seen' -> q ∈ seen \/
       (q ∈ new /\ exists d, q = step (r, c) d /\ inbp q = true /\ cell b q.1 q.2 = Ok OPEN)) /\
    (forall d, d ∈ ds -> inbp (step (r, c) d) = true ->
       cell b (step (r, c) d).1 (step (r, c) d).2 = Ok OPEN -> step (r, c) d ∈ seen').
Proof.
  intros Hshape. revert seen stack.
  induction ds as [|d ds IH]; intros seen stack; simpl.
  - exists seen, []. split; [reflexivity|]. split; [set_solver|].
    split; [reflexivity|]. split; [intros q Hq; by apply elem_of_nil in Hq|].
    split; [auto|]. intros d Hd. by apply elem_of_nil in Hd.
  - destruct (DELTAS d) as [dr dc] eqn:HD.
    pose proof (step_pair r c d dr dc HD) as Hstep.
    destruct (bool_decide ((r + dr, c + dc) ∉ seen) && inb (r + dr) (c + dc)) eqn:Hcond.
    + apply andb_prop in Hcond as [Hnot Hin]. apply bool_decide_eq_true in Hnot.
      destruct (shape_cell b (r + dr) (c + dc) Hshape Hin) as [v Hv].
      rewrite Hv. cbn [rbind].
      destruct (String.eqb v OPEN) eqn:Ho.
      * apply String.eqb_eq in Ho. subst v.
        destruct (IH ({[(r + dr, c + dc)]} ∪ seen) ((r + dr, c + dc) :: stack))
          as (seen' & new & Hff & Hsub & Hsize & Hnew & Horig & Hclos).
        exists seen', (new ++ [(r + dr, c + dc)]).
        rewrite <- app_assoc. split; [exact Hff|].
        split; [set_solver|].
        split.
        { rewrite Hsize, length_app, size_union, size_singleton by set_solver. simpl. lia. }
        split.
        { intros q Hq. apply elem_of_app in Hq as [Hq|Hq]; [auto|].
          apply elem_of_cons in Hq as [->|Hq]; [set_solver | by apply elem_of_nil in Hq]. }
        split.
        { intros q Hq. destruct (Horig q Hq) as [Hq'|[Hqn Hqd]].
          - apply elem_of_union in Hq' as [Hq'|Hq']; [|auto].
            apply elem_of_singleton in Hq' as ->. right. split.
            + apply elem_of_app. right. left.
            + exists d. rewrite Hstep. split; [reflexivity|]. split; [exact Hin|exact Hv].
          - right. split; [apply elem_of_app; left; exact Hqn | exact Hqd]. }
        intros d' Hd' Hin' Hv'. apply elem_of_cons in Hd' as [->|Hd']; [|auto].
        rewrite Hstep. apply Hsub. set_solver.
      * destruct (IH seen stack) as (seen' & new & Hff & Hsub & Hsize & Hnew & Horig & Hclos).
        exists seen', new. split; [exact Hff|]. do 4 (split; [assumption|]).
        intros d' Hd' Hin' Hv'. apply elem_of_cons in Hd' as [->|Hd']; [|auto].
        rewrite Hstep in Hv'. simpl in Hv'. rewrite Hv in Hv'. injection Hv' as ->.
        discriminate Ho.
    + destruct (IH seen stack) as (seen' & new & Hff & Hsub & Hsize & Hnew & Horig & Hclos).
      exists seen', new. split; [exact Hff|]. do 4 (split; [assumption|]).
      intros d' Hd' Hin' Hv'. apply elem_of_cons in Hd' as [->|Hd']; [|auto].
      rewrite Hstep in Hin' |- *. unfold inbp in Hin'. simpl in Hin'.
      rewrite Hin', andb_true_r in Hcond. apply bool_decide_eq_false in Hcond.
      apply Hsub. destruct (decide ((r + dr, c + dc) ∈ seen)); [assumption|contradiction].
Qed.

Lemma ff_loop_ok b ds start :
  board_shape b = true -> (forall d, d ∈ ds) ->
  forall n seen stack,
    start ∈ seen -> seen ⊆ all_cells ->
    (forall q, q ∈ seen -> reachable b start q) ->
    (forall q, q ∈ stack -> q ∈ seen) ->
    (forall q, q ∈ seen -> q ∈ stack \/
       forall d, inbp (step q d) = true -> cell b (step q d).1 (step q d).2 = Ok OPEN ->
         step q d ∈ seen) ->
    (2 * (360 - size seen) + length stack < n)%nat ->
    exists seen_f, ff_loop n b ds seen stack = Ok seen_f /\
      forall q, q ∈ seen_f <-> reachable b start q.
Proof.
  intros Hshape Hds n. induction n as [|n IH]; intros seen stack Hstart Hcells Hreach Hstack Hclos Hmeas.
  { lia. }
  destruct stack as [|[pr pc] stack]; simpl.
  - exists seen. split; [reflexivity|]. intros q. split; [auto|].
    induction 1 as [Hin Hv|p d Hp IHp Hin Hv]; [exact Hstart|].
    destruct (Hclos p IHp) as [Hs|Hs]; [by apply elem_of_nil in Hs|]. auto.
  - destruct (ff_dirs_ok b pr pc ds seen stack Hshape)
      as (seen' & new & Hff & Hsub & Hsize & Hnew & Horig & Hcl).
    rewrite Hff. cbn [rbind].
    assert (Hp : (pr, pc) ∈ seen) by (apply Hstack; left).
    assert (Hcells' : seen' ⊆ all_cells).
    { intros q Hq. destruct (Horig q Hq) as [Hq'|[_ (d & -> & Hin & _)]];
        [auto | by apply elem_of_all_cells]. }
    assert (Hle : (size seen' <= 360)%nat)
      by (rewrite <- size_all_cells; by apply subseteq_size).
    apply IH.
    + auto.
    + exact Hcells'.
    + intros q Hq. destruct (Horig q Hq) as [Hq'|[_ (d & -> & Hin & Hv)]]; [auto|].
      apply reach_step; [auto|exact Hin|exact Hv].
    + intros q Hq. apply elem_of_app in Hq as [Hq|Hq]; [auto|].
      apply Hsub, Hstack. by right.
    + intros q Hq. destruct (Horig q Hq) as [Hq'|[Hqn _]].
      * destruct (Hclos q Hq') as [Hs|Hs].
        -- apply elem_of_cons in Hs as [->|Hs].
           ++ right. intros d Hin Hv. exact (Hcl d (Hds d) Hin Hv).
           ++ left. apply elem_of_app. by right.
        -- right. intros d Hin Hv. apply Hsub. auto.
      * left. apply elem_of_app. by left.
    + rewrite length_app. simpl in Hmeas. lia.
Qed.

Lemma flood_fill_gen_exact ds b start :
  board_shape b = true -> (forall d, d ∈ ds) ->
  exists S : gset pos, (forall q, q ∈ S <-> reachable b start q) /\
    flood_fill_gen ds b start = Ok (size S).
Proof.
  intros Hshape Hds. unfold flood_fill_gen.
  destruct (shape_row0 b Hshape) as [row0 Hrow0]. rewrite Hrow0. cbn [rbind].
  destruct (inbp start) eqn:Hin; cbn [negb].
  2:{ exists ∅. split; [|reflexivity]. intros q. split; [set_solver|].
      intros Hr. apply reachable_start_open in Hr as [Hin' _]. congruence. }
  destruct start as [sr sc].
  destruct (shape_cell b sr sc Hshape Hin) as [v Hv]. cbn [fst snd]. rewrite Hv. cbn [rbind].
  destruct (String.eqb v OPEN) eqn:Ho; cbn [negb].
  2:{ exists ∅. split; [|reflexivity]. intros q. split; [set_solver|].
      intros Hr. apply reachable_start_open in Hr as [_ Hv']. simpl in Hv'.
      rewrite Hv in Hv'. injection Hv' as ->. discriminate Ho. }
  apply String.eqb_eq in Ho. subst v.
  destruct (ff_loop_ok b ds (sr, sc) Hshape Hds ff_fuel {[(sr, sc)]} [(sr, sc)])
    as (seen_f & Hloop & Hiff).
  - set_solver.
  - intros q Hq. apply elem_of_singleton in Hq as ->. by apply elem_of_all_cells.
  - intros q Hq. apply elem_of_singleton in Hq as ->. apply reach_start; assumption.
  - intros q Hq. apply elem_of_cons in Hq as [->|Hq]; [set_solver | by apply elem_of_nil in Hq].
  - intros q Hq. apply elem_of_singleton in Hq as ->. left. left.
  - rewrite size_singleton. unfold ff_fuel. simpl. lia.
  - exists seen_f. split; [exact Hiff|]. rewrite Hloop. reflexivity.
Qed.

(** C6: on an 18 x 20 board, [flood_fill_area] returns 0 from an
    out-of-bounds or non-OPEN start, and otherwise the number of distinct
    OPEN cells 4-connected-reachable from the start (the start included);
    the inner loop may visit the directions in any order without changing
    the result. *)
Theorem flood_fill_area_exact (b : board) (start : pos) :
  board_shape b = true ->
  ((inbp start = false \/ cell b start.1 start.2 <> Ok OPEN) ->
     flood_fill_area b start = Ok 0%nat) /\
  (exists S : gset pos, (forall q, q ∈ S <-> reachable b start q) /\
     flood_fill_area b start = Ok (size S)) /\
  (forall ds, (forall d, d ∈ ds) -> flood_fill_gen ds b start = flood_fill_area b start).
Proof.
  intros Hshape.
  destruct (flood_fill_gen_exact DIRS b start Hshape DIRS_complete) as (S & HS & Hff).
  split; [|split; [exists S; split; assumption|]].
  - intros Hnot. unfold flood_fill_area. rewrite Hff. f_equal.
    replace S with (∅ : gset pos); [reflexivity|].
    apply set_eq. intros q. rewrite HS. split; [set_solver|].
    intros Hr. apply reachable_start_open in Hr as [Hin Hv]. destruct Hnot; congruence.
  - intros ds Hds. destruct (flood_fill_gen_exact ds b start Hshape Hds) as (S' & HS' & Hff').
    unfold flood_fill_area. rewrite Hff, Hff'. f_equal.
    replace S' with S; [reflexivity|].
    apply set_eq. intros q. rewrite HS, HS'. reflexivity.
Qed.

Lemma flood_fill_area_exact_witness :
  exists S : gset pos, (forall q, q ∈ S <-> reachable open_board (5, 5) q) /\
    flood_fill_area open_board (5, 5) = Ok (size S).
Proof.
  destruct (flood_fill_area_exact open_board (5, 5)) as (_ & HS & _).
  - vm_compute. reflexivity.
  - exact HS.
Defined.

(** ** longest_safe_path *)

Lemma lsp_dirs_err b p vis ds stack best e :
  lsp_dirs b p vis ds stack best = Err e -> e = IndexError.
Proof.
  revert stack best. induction ds as [|d ds IH]; intros stack best; simpl; [discriminate|].
  destruct (step p d) as [nr nc]. destruct (inb nr nc); cbn [negb]; [|apply IH].
  destruct (cell b nr nc) as [v|e'] eqn:Hc; cbn [rbind].
  - destruct (String.eqb v WALL || bool_decide ((nr, nc) ∈ vis)); apply IH.
  - intros [= <-]. exact (cell_err _ _ _ _ Hc).
Qed.

Lemma lsp_dirs_shape_ok b p vis ds stack best :
  board_shape b = true -> exists r, lsp_dirs b p vis ds stack best = Ok r.
Proof.
  intros Hshape. revert stack best. induction ds as [|d ds IH]; intros stack best; simpl; [eauto|].
  destruct (step p d) as [nr nc]. destruct (inb nr nc) eqn:Hin; cbn [negb]; [|apply IH].
  destruct (shape_cell b nr nc Hshape Hin) as [v Hv]. rewrite Hv. cbn [rbind].
  destruct (String.eqb v WALL || bool_decide ((nr, nc) ∈ vis)); apply IH.
Qed.

Lemma lsp_dirs_spec b p vis ds stack best stack' best' :
  lsp_dirs b p vis ds stack best = Ok (stack', best') ->
  exists new, stack' = new ++ stack /\ (length new <= length ds)%nat /\
    (forall x, x ∈ new -> x.1 ∈ all_cells /\ x.2 = vis ∪ {[p]}) /\
    (best' <= Nat.max best 1)%nat.
Proof.
  revert stack best. induction ds as [|d ds IH]; intros stack best; simpl.
  - intros [= <- <-]. exists []. split; [reflexivity|]. split; [simpl; lia|].
    split; [intros x Hx; by apply elem_of_nil in Hx | lia].
  - destruct (step p d) as [nr nc] eqn:Hstep.
    destruct (inb nr nc) eqn:Hin; cbn [negb].
    2:{ intros Hl. destruct (IH _ _ Hl) as (new & -> & Hlen & Hnew & Hb).
        exists new. split; [reflexivity|]. split; [simpl; lia|]. split; [exact Hnew|lia]. }
    destruct (cell b nr nc) as [v|e]; cbn [rbind]; [|discriminate].
    destruct (String.eqb v WALL || bool_decide ((nr, nc) ∈ vis)).
    + intros Hl. destruct (IH _ _ Hl) as (new & -> & Hlen & Hnew & Hb).
      exists new. split; [reflexivity|]. split; [simpl; lia|]. split; [exact Hnew|lia].
    + intros Hl. destruct (IH _ _ Hl) as (new & -> & Hlen & Hnew & Hb).
      exists (new ++ [((nr, nc), vis ∪ {[p]})]). rewrite <- app_assoc.
      split; [reflexivity|]. split; [rewrite length_app; simpl; lia|].
      split; [|lia].
      intros x Hx. apply elem_of_app in Hx as [Hx|Hx]; [auto|].
      apply elem_of_cons in Hx as [->|Hx]; [|by apply elem_of_nil in Hx].
      split; [by apply elem_of_all_cells | reflexivity].
Qed.

Lemma size_diff_insert (U : gset pos) (memo : gmap pos nat) p best :
  p ∈ U -> memo !! p = None ->
  size (U ∖ dom memo) = S (size (U ∖ dom (<[p := best]> memo))).
Proof.
  intros HpU Hp. apply not_elem_of_dom in Hp. rewrite dom_insert_L.
  assert (Heq : U ∖ dom memo = {[p]} ∪ (U ∖ ({[p]} ∪ dom memo))).
  { apply set_eq. intros q. destruct (decide (q = p)) as [->|Hne]; set_solver. }
  rewrite Heq, size_union, size_singleton by set_solver. reflexivity.
Qed.

(** The loop ends (empty stack) or raises [IndexError] before its fuel runs
    out; it never raises on an 18 x 20 board. *)
Lemma lsp_loop_ends b start :
  forall n memo stack ml,
    (forall x, x ∈ stack -> x.1 ∈ all_cells ∪ {[start]}) ->
    (5 * size ((all_cells ∪ {[start]}) ∖ dom memo) + length stack < n)%nat ->
    (exists k, lsp_loop n b memo stack ml = Ok k) \/
    (lsp_loop n b memo stack ml = Err IndexError /\ board_shape b = false).
Proof.
  set (U := all_cells ∪ {[start]}).
  intros n. induction n as [|n IH]; intros memo stack ml Hstack Hmeas; [lia|].
  destruct stack as [|[p vis] stack]; cbn [lsp_loop]; [left; eauto|].
  assert (HpU : p ∈ U) by exact (Hstack (p, vis) (list_elem_of_here _ _)).
  cbn [length] in Hmeas.
  destruct (memo !! p) as [m|] eqn:Hm.
  - apply IH; [intros x Hx; apply Hstack; by right | lia].
  - destruct (lsp_dirs b p vis DIRS stack 0) as [[stack' best]|e] eqn:Hd;
      [rewrite rbind_Ok | rewrite rbind_Err].
    + destruct (lsp_dirs_spec _ _ _ _ _ _ _ _ Hd) as (new & -> & Hlen & Hnew & _).
      apply IH.
      * intros x Hx. apply elem_of_app in Hx as [Hx|Hx].
        -- apply elem_of_union_l. exact (proj1 (Hnew x Hx)).
        -- apply Hstack. by right.
      * rewrite (size_diff_insert U memo p best HpU Hm) in Hmeas.
        rewrite length_app. cbn [length DIRS] in Hlen. lia.
    + right. rewrite (lsp_dirs_err _ _ _ _ _ _ _ Hd). split; [reflexivity|].
      destruct (board_shape b) eqn:Hshape; [|reflexivity].
      destruct (lsp_dirs_shape_ok b p vis DIRS stack 0 Hshape) as [r Hr]. congruence.
Qed.

Lemma size_universe_le start : (size (all_cells ∪ {[start]} : gset pos) <= 361)%nat.
Proof.
  rewrite size_union_alt, size_all_cells.
  pose proof (subseteq_size ({[start]} ∖ all_cells) {[start]} ltac:(set_solver)) as Hle.
  rewrite size_singleton in Hle. lia.
Qed.

(** The value is at most one more than the number of distinct positions
    a path can hold. *)
Lemma lsp_loop_bound b start :
  forall n memo stack ml k,
    (forall x, x ∈ stack -> x.1 ∈ all_cells ∪ {[start]} /\ x.2 ⊆ all_cells ∪ {[start]}) ->
    (forall q m, memo !! q = Some m -> (m <= 1)%nat) ->
    (ml <= size (all_cells ∪ {[start]}) + 1)%nat ->
    lsp_loop n b memo stack ml = Ok k ->
    (k <= size (all_cells ∪ {[start]}) + 1)%nat.
Proof.
  set (U := all_cells ∪ {[start]}).
  intros n. induction n as [|n IH]; intros memo stack ml k Hstack Hmemo Hml Hl; [discriminate|].
  destruct stack as [|[p vis] stack]; cbn [lsp_loop] in Hl; [injection Hl as <-; exact Hml|].
  destruct (Hstack (p, vis) (list_elem_of_here _ _)) as [HpU HvU]. cbn [fst snd] in HpU, HvU.
  pose proof (subseteq_size _ _ HvU) as Hvis.
  destruct (memo !! p) as [m|] eqn:Hm.
  - eapply IH; [| exact Hmemo | | exact Hl].
    + intros x Hx. apply Hstack. by right.
    + specialize (Hmemo _ _ Hm). lia.
  - inv_okr Hl. destruct a as [stack' best].
    destruct (lsp_dirs_spec _ _ _ _ _ _ _ _ E) as (new & -> & _ & Hnew & Hbest).
    eapply IH; [| | | exact Hl].
    + intros x Hx. apply elem_of_app in Hx as [Hx|Hx].
      * destruct (Hnew x Hx) as [Hc ->]. split; [by apply elem_of_union_l|].
        intros q Hq. apply elem_of_union in Hq as [Hq|Hq]; [auto|].
        apply elem_of_singleton in Hq as ->. exact HpU.
      * apply Hstack. by right.
    + intros q m'. rewrite lookup_insert. case_decide.
      * intros [= <-]. lia.
      * apply Hmemo.
    + lia.
Qed.

Lemma longest_safe_path_le b start k :
  longest_safe_path b start = Ok k -> (k <= 362)%nat.
Proof.
  unfold longest_safe_path. intros Hl. inv_okr Hl.
  pose proof (size_universe_le start) as HU.
  assert (k <= size (all_cells ∪ {[start]}) + 1)%nat; [|lia].
  eapply lsp_loop_bound; [| | | exact Hl].
  - intros x Hx. apply elem_of_cons in Hx as [->|Hx]; [|by apply elem_of_nil in Hx].
    cbn [fst snd]. split; [apply elem_of_union_r, elem_of_singleton; reflexivity | apply empty_subseteq].
  - intros q m Hq. by rewrite lookup_empty in Hq.
  - lia.
Qed.

(** C5: [longest_safe_path] is total.  For every board and start its loop
    empties its stack within [lsp_fuel] iterations (the only other outcome
    is Python's [IndexError] on a board that is not 18 x 20), and on an
    18 x 20 board it always returns a length. *)
Theorem longest_safe_path_total :
  (forall (b : board) (start : pos),
     (exists k, longest_safe_path b start = Ok k) \/
     longest_safe_path b start = Err IndexError) /\
  (forall (b : board) (start : pos),
     board_shape b = true -> exists k, longest_safe_path b start = Ok k).
Proof.
  assert (Hends : forall b start,
    (exists k, longest_safe_path b start = Ok k) \/
    (longest_safe_path b start = Err IndexError /\ board_shape b = false)).
  { intros b start. unfold longest_safe_path.
    destruct (py_get b 0) as [row0|e] eqn:Hrow0; [rewrite rbind_Ok | rewrite rbind_Err].
    - apply (lsp_loop_ends b start).
      + intros x Hx. apply elem_of_cons in Hx as [->|Hx]; [|by apply elem_of_nil in Hx].
        apply elem_of_union_r, elem_of_singleton. reflexivity.
      + rewrite dom_empty_L, difference_empty_L. pose proof (size_universe_le start).
        cbn [length]. unfold lsp_fuel. lia.
    - right. rewrite (py_get_err _ _ _ Hrow0). split; [reflexivity|].
      destruct (board_shape b) eqn:Hs; [|reflexivity].
      destruct (shape_row0 b Hs) as [r Hr]. congruence. }
  split.
  - intros b start. destruct (Hends b start) as [?|[? _]]; auto.
  - intros b start Hs. destruct (Hends b start) as [?|[_ ?]]; [auto|congruence].
Qed.

(** ** territorial_threat *)

Lemma py_index_of_nat n i k : py_index n (Z.of_nat i) = Some k -> k = i.
Proof.
  unfold py_index.
  destruct ((0 <=? Z.of_nat i) && (Z.of_nat i <? Z.of_nat n)).
  - intros [= <-]. apply Nat2Z.id.
  - destruct ((- Z.of_nat n <=? Z.of_nat i) && (Z.of_nat i <? 0)) eqn:E; [|discriminate].
    apply andb_prop in E as [_ E]. apply Z.ltb_lt in E. lia.
Qed.

Lemma py_get_of_nat {A} (l : list A) i x : py_get l (Z.of_nat i) = Ok x -> l !! i = Some x.
Proof.
  unfold py_get. destruct (py_index (length l) (Z.of_nat i)) as [k|] eqn:E; [|discriminate].
  apply py_index_of_nat in E as ->. destruct (l !! i); simpl; congruence.
Qed.

Lemma py_get2_dist dm i j y :
  py_get2 dm (Z.of_nat i) (Z.of_nat j) = Ok y -> dist_at dm i j = y.
Proof.
  unfold py_get2. intros Hg. inv_okr Hg.
  apply py_get_of_nat in E, Hg. unfold dist_at.
  change (list (list (option nat))) with dist_map in E. rewrite E, Hg. reflexivity.
Qed.

Lemma tt_count_spec dy dopp ijs :
  forall t0 n0 t n, tt_count dy dopp ijs t0 n0 = Ok (t, n) ->
  t = (t0 + length (List.filter (is_contested dy dopp) ijs))%nat /\
  n = (n0 + length (List.filter (is_reached dy) ijs))%nat.
Proof.
  induction ijs as [|[i j] ijs IH]; intros t0 n0 t n Hc.
  - injection Hc as <- <-. simpl. lia.
  - cbn [tt_count] in Hc. inv_okr Hc. apply py_get2_dist in E.
    cbn [List.filter]. unfold is_contested at 1, is_reached at 1. cbn [fst snd].
    rewrite E. destruct a as [a|].
    + inv_okr Hc. apply py_get2_dist in E0. rewrite E0.
      destruct a0 as [b'|].
      * destruct (Nat.leb b' a); apply IH in Hc; cbn [length]; lia.
      * apply IH in Hc. cbn [length]. lia.
    + apply IH in Hc. lia.
Qed.

Lemma filter_length_mono {A} (f g : A -> bool) l :
  (forall x, f x = true -> g x = true) ->
  (length (List.filter f l) <= length (List.filter g l))%nat.
Proof.
  intros Hfg. induction l as [|x l IH]; [simpl; lia|].
  cbn [List.filter]. destruct (f x) eqn:Hf.
  - rewrite (Hfg x Hf). cbn [length]. lia.
  - destruct (g x); cbn [length]; lia.
Qed.

Lemma filter_none {A} (f : A -> bool) l : (forall x, f x = false) -> List.filter f l = [].
Proof.
  intros Hf. induction l as [|x l IH]; [reflexivity|].
  cbn [List.filter]. rewrite Hf. exact IH.
Qed.

Lemma contested_reached dy dopp ij : is_contested dy dopp ij = true -> is_reached dy ij = true.
Proof.
  unfold is_contested, is_reached. destruct (dist_at dy ij.1 ij.2); [reflexivity|discriminate].
Qed.

Lemma Q_of_nat_le m n : (m <= n)%nat -> (Q_of_nat m <= Q_of_nat n)%Q.
Proof. intros Hmn. unfold Q_of_nat. rewrite <- Zle_Qle. lia. Qed.

Lemma Q_ratio_bounds c t :
  (c <= t)%nat -> t <> 0%nat -> (0 <= Q_of_nat c / Q_of_nat t <= 1)%Q.
Proof.
  intros Hct Ht.
  assert (Hpos : (0 < Q_of_nat t)%Q).
  { unfold Q_of_nat. change 0%Q with (inject_Z 0). rewrite <- Zlt_Qlt. lia. }
  split.
  - apply Qle_shift_div_l; [exact Hpos|]. rewrite Qmult_0_l.
    apply (Q_of_nat_le 0 c). lia.
  - apply Qle_shift_div_r; [exact Hpos|]. rewrite Qmult_1_l. apply Q_of_nat_le. exact Hct.
Qed.

(** The shape of every result of [territorial_threat_d]. *)
Lemma territorial_threat_d_spec md b you opp r :
  territorial_threat_d md b you opp = Ok r ->
  exists row0 dy dopp,
    py_get b 0 = Ok row0 /\
    bfs md b you (repeat (repeat None (length row0)) (length b)) = Ok dy /\
    bfs md b opp (repeat (repeat None (length row0)) (length b)) = Ok dopp /\
    r = (let cells := grid_indices (length b) (length row0) in
         let total := length (List.filter (is_reached dy) cells) in
         if Nat.eqb total 0 then 0%Q
         else (Q_of_nat (length (List.filter (is_contested dy dopp) cells)) / Q_of_nat total)%Q).
Proof.
  unfold territorial_threat_d. intros Ht. inv_okr Ht.
  destruct a2 as [t n]. apply tt_count_spec in E2 as [-> ->].
  exists a, a0, a1. split; [exact E|]. split; [exact E0|]. split; [exact E1|].
  rewrite !Nat.add_0_l in Ht. cbv zeta.
  destruct (Nat.eqb (length (List.filter (is_reached a0) _)) 0); congruence.
Qed.

Lemma territorial_threat_d_bounds md b you opp r :
  territorial_threat_d md b you opp = Ok r -> (0 <= r <= 1)%Q.
Proof.
  intros Ht. destruct (territorial_threat_d_spec _ _ _ _ _ Ht) as (row0 & dy & dopp & _ & _ & _ & ->).
  cbv zeta. destruct (Nat.eqb _ 0) eqn:Hz.
  - split; discriminate.
  - apply Nat.eqb_neq in Hz. apply Q_ratio_bounds; [|exact Hz].
    apply filter_length_mono, contested_reached.
Qed.

(** C4: a result [r] of [territorial_threat] lies in [0, 1]; it is the
    number of cells both BFS maps reach with the opponent's depth [<=] the
    agent's (ties count for the opponent), divided by the number of cells
    the agent's BFS reaches (0 if that is 0); and it is 0 when no cell
    the agent reaches is also reached by the opponent. *)
Theorem territorial_threat_ratio (b : board) (you opp : pos) (r : Q) :
  territorial_threat b you opp = Ok r ->
  (0 <= r <= 1)%Q /\
  exists row0 dy dopp,
    py_get b 0 = Ok row0 /\
    bfs 6 b you (repeat (repeat None (length row0)) (length b)) = Ok dy /\
    bfs 6 b opp (repeat (repeat None (length row0)) (length b)) = Ok dopp /\
    r = (let cells := grid_indices (length b) (length row0) in
         let total := length (List.filter (is_reached dy) cells) in
         if Nat.eqb total 0 then 0%Q
         else (Q_of_nat (length (List.filter (is_contested dy dopp) cells)) / Q_of_nat total)%Q) /\
    ((forall i j a, dist_at dy i j = Some a -> dist_at dopp i j = None) -> (r == 0)%Q).
Proof.
  intros Ht. split; [exact (territorial_threat_d_bounds _ _ _ _ _ Ht)|].
  destruct (territorial_threat_d_spec _ _ _ _ _ Ht) as (row0 & dy & dopp & H0 & Hy & Ho & Hr).
  exists row0, dy, dopp. do 3 (split; [assumption|]). split; [exact Hr|].
  intros Hnone. rewrite Hr. cbv zeta.
  assert (Hc : List.filter (is_contested dy dopp) (grid_indices (length b) (length row0)) = []).
  { apply filter_none. intros [i j]. unfold is_contested. cbn [fst snd].
    destruct (dist_at dy i j) as [a|] eqn:Ea; [|reflexivity].
    rewrite (Hnone i j a Ea). reflexivity. }
  destruct (Nat.eqb _ 0); [reflexivity|]. rewrite Hc. reflexivity.
Qed.

Lemma territorial_threat_ratio_witness :
  territorial_threat open_board (5, 5) (6, 6) = Ok (57 # 83) /\ (0 <= 57 # 83 <= 1)%Q.
Proof.
  assert (Ht : territorial_threat open_board (5, 5) (6, 6) = Ok (57 # 83)).
  { vm_compute. reflexivity. }
  split; [exact Ht | exact (proj1 (territorial_threat_ratio _ _ _ _ Ht))].
Defined.

(** ** The fatal sentinel *)

Lemma aggregate_lower sp :
  (-362 <= sp_path_diff sp)%Z -> (0 <= sp_threat sp <= 1)%Q -> (-12 < aggregate sp)%Q.
Proof.
  intros Hpd Hth. destruct sp as [pd hd rk th ex fr eg]; cbn [sp_path_diff sp_threat] in *.
  unfold aggregate; cbn [sp_path_diff sp_headon sp_risk sp_threat sp_explore sp_freedom sp_endgame].
  assert (Hpd' : (-362 <= inject_Z pd)%Q).
  { change (-362)%Q with (inject_Z (-362)). rewrite <- Zle_Qle. exact Hpd. }
  assert (Hfr : (0 <= Q_of_nat fr)%Q).
  { unfold Q_of_nat. change 0%Q with (inject_Z 0). rewrite <- Zle_Qle. lia. }
  unfold W_SURVIVAL, W_PATH_DIFF, W_HEADON, W_RISK, W_TERRITORY_THREAT,
    W_EXPLORATION, W_FREEDOM, W_ENDGAME.
  destruct hd, rk, ex, eg; unfold Q_of_bool; lra.
Qed.

Lemma compute_parts_bounds b ny opp od sp :
  compute_parts b ny opp od = Ok sp ->
  (-362 <= sp_path_diff sp)%Z /\ (0 <= sp_threat sp <= 1)%Q.
Proof.
  unfold compute_parts. intros Hc. inv_okr Hc.
  destruct (match dir_of_string (default "UP"%string od) with
            | Some d => DELTAS d | None => (0, 0) end) as [dr dc].
  inv_okr Hc. injection Hc as <-. cbn [sp_path_diff sp_threat].
  apply longest_safe_path_le in E0.
  split; [lia|]. exact (territorial_threat_d_bounds _ _ _ _ _ E1).
Qed.

(** C1: a candidate whose destination is off the board or a wall scores
    exactly [W_FATAL]; every score [heuristic_score] returns is either
    [W_FATAL] or above [-12], hence strictly above [W_FATAL]. *)
Theorem fatal_sentinel_dominates (st : game_state) (mv : dir) :
  ((inbp (step (gs_you st) mv) = false \/
    cell (gs_board st) (step (gs_you st) mv).1 (step (gs_you st) mv).2 = Ok WALL) ->
   heuristic_score st mv = Ok W_FATAL) /\
  (forall s, heuristic_score st mv = Ok s ->
   s = W_FATAL \/ ((-12 < s)%Q /\ (W_FATAL < s)%Q)).
Proof.
  split.
  - intros Hd. unfold heuristic_score, simulate_move.
    destruct (step (gs_you st) mv) as [nr nc] eqn:Hs. cbn [fst snd] in Hd.
    unfold inbp in Hd. cbn [fst snd] in Hd.
    destruct (inb nr nc) eqn:Hin; cbn [negb].
    + destruct Hd as [Hd|Hd]; [discriminate|]. rewrite Hd, rbind_Ok. reflexivity.
    + reflexivity.
  - intros s Hs. destruct (heuristic_score_cases _ _ _ Hs) as [->|(ny & b1 & b2 & sp & _ & _ & _ & _ & _ & Hc & ->)].
    + left. reflexivity.
    + right. destruct (compute_parts_bounds _ _ _ _ _ Hc) as [Hpd Hth].
      pose proof (aggregate_lower sp Hpd Hth) as Hl. split; [exact Hl|].
      apply Qlt_trans with (-12)%Q; [reflexivity | exact Hl].
Qed.

Lemma fatal_sentinel_dominates_witness :
  heuristic_score state_corner UP = Ok W_FATAL.
Proof.
  apply (proj1 (fatal_sentinel_dominates state_corner UP)). left. reflexivity.
Defined.

(** ** The caller's board under [heuristic_score] *)

Module HeapFacts.
Import Heap.

Lemma bindM_ok {A B} (m : M A) (k : A -> M B) h h1 x :
  m h = (h1, Ok x) -> bindM m k h = k x h1.
Proof. unfold bindM. intros ->. reflexivity. Qed.

Lemma bindM_err {A B} (m : M A) (k : A -> M B) h h1 e :
  m h = (h1, Err e) -> bindM m k h = (h1, Err e).
Proof. unfold bindM. intros ->. reflexivity. Qed.

Lemma lookup_map_list {A B} (f : A -> B) (l : list A) k : map f l !! k = f <$> (l !! k).
Proof. revert k. induction l as [|x l IH]; intros [|k]; simpl; auto. Qed.

Lemma py_get_map {A B} (f : A -> B) (l : list A) i :
  py_get (map f l) i = match py_get l i with Ok x => Ok (f x) | Err e => Err e end.
Proof.
  unfold py_get. rewrite length_map. destruct (py_index (length l) i) as [k|]; [|reflexivity].
  rewrite lookup_map_list. destruct (l !! k); reflexivity.
Qed.

(** Two row stores that agree on the rows of the board. *)
Definition agree (rows : list loc) (rs rs' : row_store) : Prop :=
  forall r, r ∈ rows -> rs r = rs' r.

Lemma abs_read_agree rows0 rows rs rs' :
  agree rows0 rs rs' -> (forall r, r ∈ rows -> r ∈ rows0) ->
  abs_read rows rs = abs_read rows rs'.
Proof.
  intros Hag. induction rows as [|r rows IH]; intros Hsub; [reflexivity|].
  cbn [abs_read]. rewrite (Hag r (Hsub r (list_elem_of_here _ _))).
  rewrite IH; [reflexivity|]. intros x Hx. apply Hsub. by right.
Qed.

Lemma agree_upd rows rs rs' r cells :
  agree rows rs rs' -> agree rows (upd rs r cells) (upd rs' r cells).
Proof. intros Hag x Hx. unfold upd. destruct (decide (x = r)); auto. Qed.

Lemma abs_set2_agree rows rs rs' i j x :
  agree rows rs rs' ->
  match abs_set2 rows rs i j x, abs_set2 rows rs' i j x with
  | Ok a, Ok a' => agree rows a a'
  | Err e, Err e' => e = e'
  | _, _ => False
  end.
Proof.
  intros Hag. unfold abs_set2.
  destruct (py_get rows i) as [r|e] eqn:Hr; rewrite ?rbind_Ok, ?rbind_Err; [|reflexivity].
  rewrite (Hag r (py_get_elem _ _ _ Hr)).
  destruct (rs' r) as [cells|]; cbn [of_option]; rewrite ?rbind_Ok, ?rbind_Err; [|reflexivity].
  destruct (py_set cells j x) as [cells'|e]; rewrite ?rbind_Ok, ?rbind_Err; [|reflexivity].
  apply agree_upd. exact Hag.
Qed.

Lemma abs_score_agree rows rs rs' you opp od mv :
  agree rows rs rs' ->
  abs_score rows rs you opp od mv = abs_score rows rs' you opp od mv.
Proof.
  intros Hag. unfold abs_score.
  rewrite (abs_read_agree rows rows rs rs' Hag (fun r H => H)).
  destruct (abs_read rows rs') as [b|e]; rewrite ?rbind_Ok, ?rbind_Err; [|reflexivity].
  destruct (simulate_move b you mv) as [[ny crash]|e]; rewrite ?rbind_Ok, ?rbind_Err; [|reflexivity].
  cbn [fst snd]. destruct crash; [reflexivity|].
  pose proof (abs_set2_agree rows rs rs' you.1 you.2 WALL Hag) as H1.
  destruct (abs_set2 rows rs you.1 you.2 WALL) as [rs1|e1],
           (abs_set2 rows rs' you.1 you.2 WALL) as [rs1'|e1']; try contradiction;
    rewrite ?rbind_Ok, ?rbind_Err; [|congruence].
  pose proof (abs_set2_agree rows rs1 rs1' opp.1 opp.2 WALL H1) as H2.
  destruct (abs_set2 rows rs1 opp.1 opp.2 WALL) as [rs2|e2],
           (abs_set2 rows rs1' opp.1 opp.2 WALL) as [rs2'|e2']; try contradiction;
    rewrite ?rbind_Ok, ?rbind_Err; [|congruence].
  rewrite (abs_read_agree rows rows rs2 rs2' H2 (fun r H => H)). reflexivity.
Qed.

(** The copy [c] holds the board [rows] of the caller with row [r] copied
    to [σ r]; the row copies are distinct objects exactly when the rows
    are, and none of them is the outer list. *)
Definition Rel (h : heap) (c : loc) (rows : list loc) (rs : row_store) (σ : loc -> loc) : Prop :=
  rows_of h c = Some (map σ rows) /\
  (forall r, r ∈ rows -> cells_of h (σ r) = rs r) /\
  (forall a b, a ∈ rows -> b ∈ rows -> σ a = σ b -> a = b) /\
  (forall r, r ∈ rows -> σ r <> c).

Lemma read_rows_rel h (rows0 rows : list loc) rs σ :
  (forall r, r ∈ rows0 -> cells_of h (σ r) = rs r) -> (forall r, r ∈ rows -> r ∈ rows0) ->
  read_rows h (map σ rows) = abs_read rows rs.
Proof.
  intros Hc. induction rows as [|r rows IH]; intros Hsub; [reflexivity|].
  cbn [map read_rows abs_read]. rewrite (Hc r (Hsub r (list_elem_of_here _ _))).
  rewrite IH; [reflexivity|]. intros x Hx. apply Hsub. by right.
Qed.

Lemma read_rel h c rows rs σ :
  Rel h c rows rs σ -> read_board h c = abs_read rows rs.
Proof.
  intros (Hc & Hcells & _ & _). unfold read_board. rewrite Hc. cbn [of_option].
  rewrite rbind_Ok. exact (read_rows_rel h rows rows rs σ Hcells (fun r H => H)).
Qed.

Lemma cells_of_insert_ne h l l' o : l' <> l -> cells_of (<[l := o]> h) l' = cells_of h l'.
Proof. intros Hne. unfold cells_of. rewrite lookup_insert_ne; auto. Qed.

Lemma rows_of_insert_ne h l l' o : l' <> l -> rows_of (<[l := o]> h) l' = rows_of h l'.
Proof. intros Hne. unfold rows_of. rewrite lookup_insert_ne; auto. Qed.

Lemma setitem2_rel h c rows rs σ i j x h' r :
  Rel h c rows rs σ -> setitem2 c i j x h = (h', r) ->
  (forall l, (forall r0, r0 ∈ rows -> l <> σ r0) -> h' !! l = h !! l) /\
  match abs_set2 rows rs i j x with
  | Ok rs' => r = Ok tt /\ Rel h' c rows rs' σ
  | Err e => r = Err e
  end.
Proof.
  intros HR Hs. pose proof HR as (Hc & Hcells & Hinj & Hnc).
  unfold setitem2 in Hs. unfold abs_set2.
  rewrite (bindM_ok _ _ h h (map σ rows)) in Hs; [|unfold load_outer; rewrite Hc; reflexivity].
  rewrite py_get_map in Hs.
  destruct (py_get rows i) as [r0|e] eqn:Hr; rewrite ?rbind_Ok, ?rbind_Err.
  2:{ rewrite (bindM_err _ _ h h e) in Hs by reflexivity. injection Hs as <- <-. auto. }
  rewrite (bindM_ok _ _ h h (σ r0)) in Hs by reflexivity.
  pose proof (py_get_elem _ _ _ Hr) as Hr0.
  destruct (rs r0) as [cells|] eqn:Hrs; cbn [of_option]; rewrite ?rbind_Ok, ?rbind_Err.
  2:{ rewrite (bindM_err _ _ h h ValueError) in Hs
        by (unfold load_row; rewrite (Hcells r0 Hr0), Hrs; reflexivity).
      injection Hs as <- <-. auto. }
  rewrite (bindM_ok _ _ h h cells) in Hs
    by (unfold load_row; rewrite (Hcells r0 Hr0), Hrs; reflexivity).
  destruct (py_set cells j x) as [cells'|e] eqn:Hps; rewrite ?rbind_Ok, ?rbind_Err.
  2:{ rewrite (bindM_err _ _ h h e) in Hs by reflexivity. injection Hs as <- <-. auto. }
  rewrite (bindM_ok _ _ h h cells') in Hs by reflexivity.
  unfold store in Hs. injection Hs as <- <-. split.
  - intros l Hl. rewrite lookup_insert_ne; [reflexivity|].
    intros Heq. exact (Hl r0 Hr0 (eq_sym Heq)).
  - split; [reflexivity|]. unfold Rel. split; [|split; [|split; [exact Hinj|exact Hnc]]].
    + rewrite rows_of_insert_ne; [exact Hc|]. intros Heq. exact (Hnc r0 Hr0 (eq_sym Heq)).
    + intros r1 Hr1. unfold upd. destruct (decide (r1 = r0)) as [->|Hne].
      * unfold cells_of. rewrite lookup_insert, decide_True by reflexivity. reflexivity.
      * rewrite cells_of_insert_ne; [apply Hcells; exact Hr1|].
        intros Heq. apply Hne. exact (Hinj _ _ Hr1 Hr0 Heq).
Qed.

(** While [deepcopy] runs: the caller's objects are untouched, every memo
    entry is a new object, the copy of a row has the row's items, the outer
    list [bl] is copied to [c], and the memo is injective. *)
Definition Inv (h h0 : heap) (memo : gmap loc loc) (bl c : loc) : Prop :=
  (forall l, l ∈ dom h -> h0 !! l = h !! l) /\
  (forall r r', memo !! r = Some r' -> r' ∈ dom h0 /\ r' ∉ dom h) /\
  (forall r r', memo !! r = Some r' -> r <> bl -> cells_of h0 r' = cells_of h r /\ r' <> c) /\
  memo !! bl = Some c /\
  (forall a b x, memo !! a = Some x -> memo !! b = Some x -> a = b).

Lemma frame_dom (h h0 : heap) :
  (forall l, l ∈ dom h -> h0 !! l = h !! l) -> forall l, l ∈ dom h -> l ∈ dom h0.
Proof.
  intros Hf l Hl. apply elem_of_dom. rewrite (Hf l Hl). by apply elem_of_dom.
Qed.

Lemma Inv_alloc h h0 memo bl c r cells :
  Inv h h0 memo bl c -> memo !! r = None -> r <> bl -> cells_of h r = Some cells ->
  Inv h (<[fresh (dom h0) := ORow cells]> h0) (<[r := fresh (dom h0)]> memo) bl c.
Proof.
  intros (Hf & Hnew & Hcp & Hbl & Hinj) Hr Hrbl Hcells.
  set (l := fresh (dom h0)).
  assert (Hl0 : l ∉ dom h0) by apply is_fresh.
  assert (Hlh : l ∉ dom h) by (intros Hin; exact (Hl0 (frame_dom h h0 Hf l Hin))).
  assert (Hold : forall r2 x, memo !! r2 = Some x -> x <> l).
  { intros r2 x Hx ->. exact (Hl0 (proj1 (Hnew r2 l Hx))). }
  split; [|split; [|split; [|split]]].
  - intros l2 Hl2. rewrite lookup_insert_ne; [exact (Hf l2 Hl2)|].
    intros ->. exact (Hlh Hl2).
  - intros r2 r2'. rewrite lookup_insert. case_decide as Heq.
    + intros [= <-]. rewrite dom_insert_L. split; [set_solver | exact Hlh].
    + intros Hx. destruct (Hnew r2 r2' Hx) as [Hin Hout].
      rewrite dom_insert_L. split; [set_solver | exact Hout].
  - intros r2 r2'. rewrite lookup_insert. case_decide as Heq.
    + intros [= <-] _. subst r2. unfold cells_of at 1. rewrite lookup_insert, decide_True by reflexivity.
      split; [symmetry; exact Hcells|].
      intros ->. exact (Hold bl c Hbl eq_refl).
    + intros Hx Hne. rewrite cells_of_insert_ne; [exact (Hcp r2 r2' Hx Hne)|].
      exact (Hold r2 r2' Hx).
  - rewrite lookup_insert_ne; [exact Hbl|]. exact Hrbl.
  - intros a b x. rewrite !lookup_insert.
    case_decide as Ha; case_decide as Hb.
    + congruence.
    + intros [= <-] Hx. exfalso. exact (Hold b l Hx eq_refl).
    + intros Hx [= <-]. exfalso. exact (Hold a l Hx eq_refl).
    + apply Hinj.
Qed.

Lemma deepcopy_rows_spec h bl c rows :
  (forall r, r ∈ rows -> r <> bl /\ r ∈ dom h /\ is_Some (cells_of h r)) ->
  forall memo h0, Inv h h0 memo bl c ->
  exists h1 memo',
    deepcopy_rows memo rows h0 = (h1, Ok (memo', map (fun r => default c (memo' !! r)) rows)) /\
    Inv h h1 memo' bl c /\
    (forall r x, memo !! r = Some x -> memo' !! r = Some x) /\
    (forall r, r ∈ rows -> is_Some (memo' !! r)).
Proof.
  intros Hrows. induction rows as [|r rows IH]; intros memo h0 HI.
  - exists h0, memo. split; [reflexivity|]. split; [exact HI|].
    split; [auto | intros r Hr; by apply elem_of_nil in Hr].
  - assert (IH' : forall memo h0, Inv h h0 memo bl c ->
      exists h1 memo',
        deepcopy_rows memo rows h0 = (h1, Ok (memo', map (fun r => default c (memo' !! r)) rows)) /\
        Inv h h1 memo' bl c /\
        (forall r x, memo !! r = Some x -> memo' !! r = Some x) /\
        (forall r, r ∈ rows -> is_Some (memo' !! r))).
    { apply IH. intros x Hx. apply Hrows. by right. }
    destruct (Hrows r (list_elem_of_here _ _)) as (Hrbl & Hrdom & [cells Hcells]).
    cbn [deepcopy_rows map]. destruct (memo !! r) as [r'|] eqn:Hm.
    + destruct (IH' memo h0 HI) as (h1 & memo' & Hd & HI' & Hmono & Hcov).
      exists h1, memo'. rewrite (bindM_ok _ _ _ _ _ Hd). unfold ret. cbn [fst snd].
      rewrite (Hmono r r' Hm). split; [reflexivity|]. split; [exact HI'|]. split; [exact Hmono|].
      intros x Hx. apply elem_of_cons in Hx as [->|Hx]; [rewrite (Hmono r r' Hm); eauto | auto].
    + pose proof HI as (Hf & _).
      assert (Hload : load_row r h0 = (h0, Ok cells)).
      { unfold load_row, cells_of. rewrite (Hf r Hrdom). unfold cells_of in Hcells.
        destruct (h !! r) as [[]|]; try discriminate. injection Hcells as ->. reflexivity. }
      rewrite (bindM_ok _ _ _ _ _ Hload).
      rewrite (bindM_ok _ _ _ (<[fresh (dom h0) := ORow cells]> h0) (fresh (dom h0))) by reflexivity.
      destruct (IH' _ _ (Inv_alloc h h0 memo bl c r cells HI Hm Hrbl Hcells))
        as (h1 & memo' & Hd & HI' & Hmono & Hcov).
      exists h1, memo'. rewrite (bindM_ok _ _ _ _ _ Hd). unfold ret. cbn [fst snd].
      assert (Hr' : memo' !! r = Some (fresh (dom h0))).
      { apply Hmono. rewrite lookup_insert, decide_True by reflexivity. reflexivity. }
      rewrite Hr'. split; [reflexivity|]. split; [exact HI'|]. split.
      * intros r2 x Hx. apply Hmono. rewrite lookup_insert_ne; [exact Hx|]. congruence.
      * intros x Hx. apply elem_of_cons in Hx as [->|Hx]; [rewrite Hr'; eauto | auto].
Qed.

Lemma deepcopy_board_spec h bl rows :
  rows_of h bl = Some rows -> (forall r, r ∈ rows -> is_Some (cells_of h r)) ->
  exists h2 c σ,
    deepcopy_board bl h = (h2, Ok c) /\ Rel h2 c rows (cells_of h) σ /\
    (forall l, l ∈ dom h -> h2 !! l = h !! l) /\
    (forall r, r ∈ rows -> σ r ∉ dom h) /\ c ∉ dom h.
Proof.
  intros Hbl Hrows.
  assert (Hrows' : forall r, r ∈ rows -> r <> bl /\ r ∈ dom h /\ is_Some (cells_of h r)).
  { intros r Hr. destruct (Hrows r Hr) as [cells Hc]. unfold cells_of in Hc. unfold rows_of in Hbl.
    split; [|split; [apply elem_of_dom; destruct (h !! r); [eauto|discriminate] | eauto]].
    intros ->. destruct (h !! bl) as [[]|]; discriminate. }
  set (c := fresh (dom h)). set (h0 := <[c := OOuter []]> h).
  assert (Hc : c ∉ dom h) by apply is_fresh.
  assert (HI : Inv h h0 {[bl := c]} bl c).
  { split; [|split; [|split; [|split]]].
    - intros l Hl. unfold h0. rewrite lookup_insert_ne; [reflexivity|]. intros ->. exact (Hc Hl).
    - intros r r' [_ <-]%lookup_singleton_Some. unfold h0. rewrite dom_insert_L.
      split; [set_solver | exact Hc].
    - intros r r' [<- _]%lookup_singleton_Some. intros Hne. by destruct Hne.
    - apply lookup_singleton_eq.
    - intros a b x [<- _]%lookup_singleton_Some [<- _]%lookup_singleton_Some. reflexivity. }
  destruct (deepcopy_rows_spec h bl c rows Hrows' _ _ HI)
    as (h1 & memo' & Hd & (Hf & Hnew & Hcp & _ & Hinj) & Hmono & Hcov).
  set (σ := fun r => default c (memo' !! r)).
  exists (<[c := OOuter (map σ rows)]> h1), c, σ.
  assert (Hσ : forall r, r ∈ rows -> memo' !! r = Some (σ r)).
  { intros r Hr. destruct (Hcov r Hr) as [x Hx]. unfold σ. rewrite Hx. reflexivity. }
  split.
  { unfold deepcopy_board.
    rewrite (bindM_ok _ _ h h rows) by (unfold load_outer; rewrite Hbl; reflexivity).
    rewrite (bindM_ok _ _ h h0 c) by reflexivity.
    rewrite (bindM_ok _ _ _ _ _ Hd). reflexivity. }
  split; [split; [|split; [|split]]|].
  - unfold rows_of. rewrite lookup_insert, decide_True by reflexivity. reflexivity.
  - intros r Hr. destruct (Hrows' r Hr) as (Hrbl & _).
    destruct (Hcp r (σ r) (Hσ r Hr) Hrbl) as [Hcells Hne].
    rewrite cells_of_insert_ne by exact Hne. exact Hcells.
  - intros a b' Ha Hb Hab. apply (Hinj a b' (σ a) (Hσ a Ha)). rewrite Hab. exact (Hσ b' Hb).
  - intros r Hr. destruct (Hrows' r Hr) as (Hrbl & _).
    exact (proj2 (Hcp r (σ r) (Hσ r Hr) Hrbl)).
  - split; [|split; [|exact Hc]].
    + intros l Hl. rewrite lookup_insert_ne; [exact (Hf l Hl)|]. intros ->. exact (Hc Hl).
    + intros r Hr. exact (proj2 (Hnew r (σ r) (Hσ r Hr))).
Qed.


Lemma read_rows_ok h rows b :
  read_rows h rows = Ok b -> forall r, r ∈ rows -> is_Some (cells_of h r).
Proof.
  revert b. induction rows as [|r rows IH]; intros b Hb x Hx; [by apply elem_of_nil in Hx|].
  cbn [read_rows] in Hb. inv_okr Hb.
  apply elem_of_cons in Hx as [<-|Hx].
  - destruct (cells_of h x); [eauto | discriminate E].
  - exact (IH _ E0 x Hx).
Qed.

Lemma read_rows_frame (h h' : heap) rows :
  (forall r, r ∈ rows -> cells_of h' r = cells_of h r) -> read_rows h' rows = read_rows h rows.
Proof.
  induction rows as [|r rows IH]; intros Hag; [reflexivity|].
  cbn [read_rows]. rewrite (Hag r (list_elem_of_here _ _)), IH; [reflexivity|].
  intros x Hx. apply Hag. by right.
Qed.

(** [heuristic_score_heap] computes [abs_score] on the caller's rows, and
    writes only objects that did not exist before the call. *)
Lemma heuristic_score_heap_abs h bl rows you opp od mv h' r :
  rows_of h bl = Some rows -> (forall x, x ∈ rows -> is_Some (cells_of h x)) ->
  heuristic_score_heap bl you opp od mv h = (h', r) ->
  r = abs_score rows (cells_of h) you opp od mv /\
  (forall l, l ∈ dom h -> h' !! l = h !! l).
Proof.
  intros Hbl Hrows Hs.
  destruct (deepcopy_board_spec h bl rows Hbl Hrows) as (h2 & c & σ & Hdc & HR & Hf2 & Hσ & Hc).
  assert (Hfr : forall l, l ∈ dom h -> forall r0, r0 ∈ rows -> l <> σ r0).
  { intros l Hl r0 Hr0 ->. exact (Hσ r0 Hr0 Hl). }
  unfold heuristic_score_heap in Hs. rewrite (bindM_ok _ _ _ _ _ Hdc) in Hs.
  unfold abs_score. rewrite <- (read_rel _ _ _ _ _ HR).
  destruct (read_board h2 c) as [b|e] eqn:Hb; rewrite ?rbind_Ok, ?rbind_Err.
  2:{ rewrite (bindM_err _ _ h2 h2 e) in Hs by (unfold read; rewrite Hb; reflexivity).
      injection Hs as <- <-. auto. }
  rewrite (bindM_ok _ _ h2 h2 b) in Hs by (unfold read; rewrite Hb; reflexivity).
  destruct (simulate_move b you mv) as [[ny crash]|e] eqn:Hsm; rewrite ?rbind_Ok, ?rbind_Err.
  2:{ rewrite (bindM_err _ _ h2 h2 e) in Hs by (unfold lift; try rewrite Hsm; reflexivity).
      injection Hs as <- <-. auto. }
  rewrite (bindM_ok _ _ h2 h2 (ny, crash)) in Hs by (unfold lift; try rewrite Hsm; reflexivity).
  cbn [fst snd] in Hs |- *. destruct crash; [injection Hs as <- <-; auto|].
  destruct (setitem2 c you.1 you.2 WALL h2) as [h3 r3] eqn:Hs3.
  destruct (setitem2_rel h2 c rows (cells_of h) σ _ _ _ h3 r3 HR Hs3) as [Hf3 H3].
  assert (Hfr3 : forall l, l ∈ dom h -> h3 !! l = h !! l).
  { intros l Hl. rewrite (Hf3 l (Hfr l Hl)). exact (Hf2 l Hl). }
  destruct (abs_set2 rows (cells_of h) you.1 you.2 WALL) as [rs1|e1];
    rewrite ?rbind_Ok, ?rbind_Err.
  2:{ subst r3. rewrite (bindM_err _ _ _ _ _ Hs3) in Hs. injection Hs as <- <-. auto. }
  destruct H3 as [-> HR3]. rewrite (bindM_ok _ _ _ _ _ Hs3) in Hs.
  destruct (setitem2 c opp.1 opp.2 WALL h3) as [h4 r4] eqn:Hs4.
  destruct (setitem2_rel h3 c rows rs1 σ _ _ _ h4 r4 HR3 Hs4) as [Hf4 H4].
  assert (Hfr4 : forall l, l ∈ dom h -> h4 !! l = h !! l).
  { intros l Hl. rewrite (Hf4 l (Hfr l Hl)). exact (Hfr3 l Hl). }
  destruct (abs_set2 rows rs1 opp.1 opp.2 WALL) as [rs2|e2]; rewrite ?rbind_Ok, ?rbind_Err.
  2:{ subst r4. rewrite (bindM_err _ _ _ _ _ Hs4) in Hs. injection Hs as <- <-. auto. }
  destruct H4 as [-> HR4]. rewrite (bindM_ok _ _ _ _ _ Hs4) in Hs.
  rewrite <- (read_rel _ _ _ _ _ HR4).
  destruct (read_board h4 c) as [b2|e] eqn:Hb2; rewrite ?rbind_Ok, ?rbind_Err.
  2:{ rewrite (bindM_err _ _ h4 h4 e) in Hs by (unfold read; rewrite Hb2; reflexivity).
      injection Hs as <- <-. auto. }
  rewrite (bindM_ok _ _ h4 h4 b2) in Hs by (unfold read; rewrite Hb2; reflexivity).
  unfold lift in Hs. injection Hs as <- <-. auto.
Qed.

End HeapFacts.



(** C7: on a caller's board object [bl] that denotes a board, a call of
    [heuristic_score] changes no object that existed before the call (so
    the caller's board still denotes the same board), and a second call on
    the resulting store returns the same result. *)
Theorem heuristic_score_heap_frame_idem (h : Heap.heap) (bl : Heap.loc) (b : board)
    (you opp : pos) (od : option string) (mv : dir) (h' : Heap.heap) (r : res Q) :
  Heap.read_board h bl = Ok b ->
  Heap.heuristic_score_heap bl you opp od mv h = (h', r) ->
  (forall l, l ∈ dom h -> h' !! l = h !! l) /\
  Heap.read_board h' bl = Ok b /\
  (Heap.heuristic_score_heap bl you opp od mv h').2 = r.
Proof.
  intros Hb Hs. unfold Heap.read_board in Hb.
  destruct (Heap.rows_of h bl) as [rows|] eqn:Hbl; [|discriminate].
  cbn [of_option] in Hb. rewrite rbind_Ok in Hb.
  pose proof (HeapFacts.read_rows_ok _ _ _ Hb) as Hrows.
  destruct (HeapFacts.heuristic_score_heap_abs _ _ _ _ _ _ _ _ _ Hbl Hrows Hs) as [Hr Hf].
  assert (Hbl_dom : bl ∈ dom h).
  { apply elem_of_dom. unfold Heap.rows_of in Hbl. destruct (h !! bl); [eauto|discriminate]. }
  assert (Hrows_dom : forall x, x ∈ rows -> x ∈ dom h).
  { intros x Hx. apply elem_of_dom. destruct (Hrows x Hx) as [cs Hcs].
    unfold Heap.cells_of in Hcs. destruct (h !! x); [eauto|discriminate]. }
  assert (Hcells : forall x, x ∈ rows -> Heap.cells_of h' x = Heap.cells_of h x).
  { intros x Hx. unfold Heap.cells_of. rewrite (Hf x (Hrows_dom x Hx)). reflexivity. }
  assert (Hbl' : Heap.rows_of h' bl = Some rows).
  { unfold Heap.rows_of. rewrite (Hf bl Hbl_dom). exact Hbl. }
  split; [exact Hf|]. split.
  - unfold Heap.read_board. rewrite Hbl'. cbn [of_option]. rewrite rbind_Ok.
    rewrite (HeapFacts.read_rows_frame h h' rows Hcells). exact Hb.
  - destruct (Heap.heuristic_score_heap bl you opp od mv h') as [h'' r2] eqn:Hs2. cbn [snd].
    assert (Hrows' : forall x, x ∈ rows -> is_Some (Heap.cells_of h' x)).
    { intros x Hx. rewrite (Hcells x Hx). exact (Hrows x Hx). }
    destruct (HeapFacts.heuristic_score_heap_abs _ _ _ _ _ _ _ _ _ Hbl' Hrows' Hs2) as [Hr2 _].
    rewrite Hr2, Hr. apply HeapFacts.abs_score_agree. intros x Hx. exact (Hcells x Hx).
Qed.

Lemma heuristic_score_heap_frame_idem_witness :
  let '(h', r) := Heap.heuristic_score_heap 1%positive (5, 5) (10, 10) None UP Heap.demo_heap in
  (forall l, l ∈ dom Heap.demo_heap -> h' !! l = Heap.demo_heap !! l) /\
  Heap.read_board h' 1%positive = Ok open_board /\
  (Heap.heuristic_score_heap 1%positive (5, 5) (10, 10) None UP h').2 = r.
Proof.
  destruct (Heap.heuristic_score_heap 1%positive (5, 5) (10, 10) None UP Heap.demo_heap) as [h' r] eqn:Hs.
  apply (heuristic_score_heap_frame_idem Heap.demo_heap 1%positive open_board (5, 5) (10, 10) None UP h' r).
  - vm_compute. reflexivity.
  - exact Hs.
Defined.

Lemma longest_safe_path_total_witness : exists k, longest_safe_path open_board (5, 5) = Ok k.
Proof. apply (proj2 longest_safe_path_total open_board (5, 5)). vm_compute. reflexivity. Defined.

Lemma py_index_some n i k : py_index n i = Some k ->
  (0 <= i < Z.of_nat n /\ k = Z.to_nat i) \/ (- Z.of_nat n <= i < 0 /\ k = Z.to_nat (Z.of_nat n + i)).
Proof.
  unfold py_index. intros E.
  destruct ((0 <=? i) && (i <? Z.of_nat n)) eqn:E1.
  - apply andb_prop in E1 as [E1 E2]. apply Z.leb_le in E1. apply Z.ltb_lt in E2.
    injection E as <-. left. lia.
  - destruct ((- Z.of_nat n <=? i) && (i <? 0)) eqn:E2; [|discriminate].
    apply andb_prop in E2 as [E2 E3]. apply Z.leb_le in E2. apply Z.ltb_lt in E3.
    injection E as <-. right. lia.
Qed.

(** Two non-negative indices address the same item only when equal. *)
Lemma py_index_inj_nonneg n i i' :
  0 <= i -> 0 <= i' -> py_index n i' = py_index n i -> py_index n i = None \/ i' = i.
Proof.
  intros Hi Hi' E. destruct (py_index n i) as [k|] eqn:Ek; [|left; reflexivity].
  right. apply py_index_some in Ek, E. lia.
Qed.

Lemma py_get_set {A} (l l' : list A) i x i' :
  py_set l i x = Ok l' ->
  py_get l' i' = if decide (py_index (length l) i' = py_index (length l) i) then Ok x
                 else py_get l i'.
Proof.
  unfold py_set, py_get. destruct (py_index (length l) i) as [k|] eqn:Ek; [|discriminate].
  intros [= <-]. rewrite length_insert. pose proof (py_index_lt _ _ _ Ek) as Hk.
  destruct (py_index (length l) i') as [k'|] eqn:Ek'.
  - destruct (decide (Some k' = Some k)) as [Heq|Hne].
    + injection Heq as ->. rewrite list_lookup_insert_eq by lia. reflexivity.
    + rewrite list_lookup_insert_ne by congruence. reflexivity.
  - rewrite decide_False by discriminate. reflexivity.
Qed.

Lemma py_get2_set2 {A} (l l' : list (list A)) i j x :
  py_set2 l i j x = Ok l' ->
  exists row, py_get l i = Ok row /\
  forall i' j', py_get2 l' i' j' =
    if decide (py_index (length l) i' = py_index (length l) i /\
               py_index (length row) j' = py_index (length row) j)
    then Ok x else py_get2 l i' j'.
Proof.
  unfold py_set2. intros Hs. inv_okr Hs. rename a into row, a0 into row'.
  exists row. split; [exact E|]. intros i' j'. unfold py_get2.
  rewrite (py_get_set _ _ _ _ i' Hs).
  destruct (decide (py_index (length l) i' = py_index (length l) i)) as [Hi|Hi].
  - assert (Hg : py_get l i' = py_get l i) by (unfold py_get; rewrite Hi; reflexivity).
    rewrite Hg, E, !rbind_Ok, (py_get_set _ _ _ _ j' E0).
    destruct (decide (py_index (length row) j' = py_index (length row) j)) as [Hj|Hj].
    + rewrite decide_True by tauto. reflexivity.
    + rewrite decide_False by tauto. reflexivity.
  - rewrite decide_False by tauto. reflexivity.
Qed.

(** Cells with non-negative coordinates other than the assigned one keep
    their value. *)
Lemma py_get2_set2_other {A} (l l' : list (list A)) i j x i' j' :
  0 <= i -> 0 <= j -> 0 <= i' -> 0 <= j' -> (i', j') <> (i, j) ->
  py_set2 l i j x = Ok l' -> py_get2 l' i' j' = py_get2 l i' j'.
Proof.
  intros Hi Hj Hi' Hj' Hne Hs.
  destruct (py_get2_set2 _ _ _ _ _ Hs) as (row & Hrow & Hg). rewrite Hg.
  destruct (decide _) as [[E1 E2]|]; [|reflexivity]. exfalso. apply Hne.
  assert (Ni : py_index (length l) i <> None).
  { intros N. unfold py_get in Hrow. rewrite N in Hrow. discriminate. }
  assert (Nj : py_index (length row) j <> None).
  { intros N. unfold py_set2 in Hs. rewrite Hrow, rbind_Ok in Hs.
    unfold py_set in Hs. rewrite N in Hs. discriminate. }
  destruct (py_index_inj_nonneg _ _ _ Hi Hi' E1) as [N | ->]; [contradiction|].
  destruct (py_index_inj_nonneg _ _ _ Hj Hj' E2) as [N | ->]; [contradiction|].
  reflexivity.
Qed.

(** ** neighbors, manhattan *)

Lemma neighbors_loop_spec r c ds q :
  q ∈ neighbors_loop r c ds <-> exists d, d ∈ ds /\ q = step (r, c) d /\ inbp q = true.
Proof.
  induction ds as [|d ds IH]; cbn [neighbors_loop].
  - split; [intros Hq; by apply elem_of_nil in Hq | intros (d & Hd & _); by apply elem_of_nil in Hd].
  - destruct (DELTAS d) as [dr dc] eqn:HD.
    assert (Hs : step (r, c) d = (r + dr, c + dc)) by exact (step_pair _ _ _ _ _ HD).
    destruct (inb (r + dr) (c + dc)) eqn:Hin.
    + rewrite elem_of_cons, IH. split.
      * intros [->|(d' & Hd' & Hq)]; [exists d; rewrite Hs; split; [left|split; [reflexivity|exact Hin]]|].
        exists d'. split; [right; exact Hd'|exact Hq].
      * intros (d' & Hd' & Hq & Hqi). apply elem_of_cons in Hd' as [->|Hd'].
        -- left. rewrite Hq, Hs. reflexivity.
        -- right. exists d'. auto.
    + rewrite IH. split.
      * intros (d' & Hd' & Hq). exists d'. split; [right; exact Hd'|exact Hq].
      * intros (d' & Hd' & Hq & Hqi). apply elem_of_cons in Hd' as [->|Hd'].
        -- exfalso. rewrite Hq, Hs in Hqi. unfold inbp in Hqi. cbn [fst snd] in Hqi. congruence.
        -- exists d'. auto.
Qed.

Lemma manhattan_one_step p q : manhattan p q = 1 <-> exists d, q = step p d.
Proof.
  destruct p as [r c], q as [r' c']. unfold manhattan. cbn [fst snd]. split.
  - intros Hm.
    assert (Hc : (r' = r - 1 /\ c' = c) \/ (r' = r + 1 /\ c' = c) \/
                 (r' = r /\ c' = c - 1) \/ (r' = r /\ c' = c + 1)) by lia.
    destruct Hc as [[-> ->]|[[-> ->]|[[-> ->]|[-> ->]]]];
      [exists UP | exists DOWN | exists LEFT | exists RIGHT];
      unfold step; cbn; f_equal; lia.
  - intros [d Hd]. destruct d; unfold step in Hd; cbn in Hd; injection Hd as -> ->; lia.
Qed.

(** X1: [neighbors r c] lists exactly the in-bounds cells at Manhattan
    distance 1 from [(r, c)]. *)
Theorem neighbors_spec (r c : Z) (q : pos) :
  q ∈ neighbors r c <-> inbp q = true /\ manhattan (r, c) q = 1.
Proof.
  unfold neighbors. rewrite neighbors_loop_spec, manhattan_one_step. split.
  - intros (d & _ & -> & Hin). split; [exact Hin|]. exists d. reflexivity.
  - intros (Hin & d & ->). exists d. split; [apply DIRS_complete|]. split; [reflexivity|exact Hin].
Qed.

(** X2: [manhattan] is symmetric, is zero exactly on equal positions and
    satisfies the triangle inequality. *)
Theorem manhattan_metric (a b c : pos) :
  manhattan a b = manhattan b a /\
  (manhattan a b = 0 <-> a = b) /\
  manhattan a c <= manhattan a b + manhattan b c.
Proof.
  destruct a as [a1 a2], b as [b1 b2], c as [c1 c2]. unfold manhattan. cbn [fst snd].
  split; [lia|]. split; [|lia]. split; [intros Hm; f_equal; lia | intros [= -> ->]; lia].
Qed.

Lemma legal_moves_loop_le_neighbors b r c ds ms :
  legal_moves_loop b r c ds = Ok ms -> (length ms <= length (neighbors_loop r c ds))%nat.
Proof.
  revert ms. induction ds as [|d ds IH]; intros ms Hl; cbn [legal_moves_loop neighbors_loop] in *.
  - injection Hl as <-. reflexivity.
  - destruct (DELTAS d) as [dr dc].
    destruct (inb (r + dr) (c + dc)).
    + inv_okr Hl. injection Hl as <-. apply IH in E0.
      destruct (String.eqb a OPEN); cbn [length]; lia.
    + exact (IH _ Hl).
Qed.

(** X3: the mobility count [next_legal_moves] of heuristic.py never
    exceeds the number of in-bounds neighbours of the position. *)
Theorem next_legal_moves_le_neighbors (b : board) (p : pos) (n : nat) :
  next_legal_moves b p = Ok n -> (n <= length (neighbors p.1 p.2))%nat.
Proof.
  unfold next_legal_moves, legal_moves, neighbors. intros Hn. inv_okr Hn.
  injection Hn as <-. exact (legal_moves_loop_le_neighbors _ _ _ _ _ E).
Qed.

Lemma next_legal_moves_le_neighbors_witness :
  next_legal_moves open_board (0, 0) = Ok 2%nat /\ (2 <= length (neighbors 0 0))%nat.
Proof.
  split; [vm_compute; reflexivity|].
  apply (next_legal_moves_le_neighbors open_board (0, 0)). vm_compute. reflexivity.
Defined.

(** ** simulate_move and move_player *)

(** X4: [is_valid_move] of search.py is the negation of the crash flag of
    [simulate_move] (errors included), and [simulate_move] stays in place
    on a crash and moves one step otherwise. *)
Theorem simulate_move_valid (b : board) (p : pos) (mv : dir) :
  (let* r := simulate_move b p mv in Ok (negb r.2)) = is_valid_move b p mv /\
  forall q crash, simulate_move b p mv = Ok (q, crash) ->
    q = if crash then p else step p mv.
Proof.
  unfold simulate_move, is_valid_move.
  destruct (step p mv) as [nr nc] eqn:Hs.
  destruct (inb nr nc); cbn [negb].
  - destruct (cell b nr nc) as [v|e]; [rewrite !rbind_Ok|rewrite !rbind_Err; split; [reflexivity|discriminate]].
    destruct (String.eqb v WALL); split; try reflexivity; intros q crash [= <- <-]; reflexivity.
  - split; [reflexivity|]. intros q crash [= <- <-]. reflexivity.
Qed.

(** X5: from an in-bounds position, [move_player] of play_vs_agent.py
    returns what [simulate_move] returns; on a crash it leaves the board
    unchanged, otherwise it writes a WALL on the old position and changes
    no other in-bounds cell. *)
Theorem move_player_spec (b b' : board) (p q : pos) (mv : dir) (crash : bool) :
  inbp p = true ->
  move_player b p mv = Ok (b', (q, crash)) ->
  simulate_move b p mv = Ok (q, crash) /\
  (crash = true -> b' = b) /\
  (crash = false ->
     cell b' p.1 p.2 = Ok WALL /\
     forall x, inbp x = true -> x <> p -> cell b' x.1 x.2 = cell b x.1 x.2).
Proof.
  intros Hp. unfold move_player, simulate_move.
  destruct (step p mv) as [nr nc] eqn:Hs.
  destruct (inb nr nc); cbn [negb].
  - destruct (cell b nr nc) as [v|e]; [rewrite !rbind_Ok|rewrite rbind_Err; discriminate].
    destruct (String.eqb v WALL).
    + intros [= -> <- <-]. split; [reflexivity|]. split; [reflexivity|discriminate].
    + intros Hm. inv_okr Hm. injection Hm as <- <- <-.
      split; [reflexivity|]. split; [discriminate|]. intros _.
      apply inb_spec in Hp. split; [exact (cell_set2_same _ _ _ _ _ E)|].
      intros [x1 x2] Hx Hne. apply inb_spec in Hx. destruct p as [p1 p2]. cbn [fst snd] in *.
      unfold cell. apply (py_get2_set2_other b _ p1 p2 WALL x1 x2); [lia|lia|lia|lia|congruence|exact E].
  - intros [= -> <- <-]. split; [reflexivity|]. split; [reflexivity|discriminate].
Qed.

Lemma move_player_spec_witness :
  move_player open_board (5, 5) UP = Ok (<[5%nat := <[5%nat := WALL]> (repeat OPEN 20)]> open_board, ((4, 5), false)) /\
  simulate_move open_board (5, 5) UP = Ok ((4, 5), false).
Proof.
  assert (E : move_player open_board (5, 5) UP = Ok (<[5%nat := <[5%nat := WALL]> (repeat OPEN 20)]> open_board, ((4, 5), false)))
    by (vm_compute; reflexivity).
  split; [exact E|].
  exact (proj1 (move_player_spec open_board _ (5, 5) (4, 5) UP false eq_refl E)).
Defined.

(** ** agent answers *)


(** ** longest_safe_path from an enclosed start *)

Lemma lsp_loop_mono n b memo stack ml k :
  lsp_loop n b memo stack ml = Ok k -> (ml <= k)%nat.
Proof.
  revert memo stack ml. induction n as [|n IH]; intros memo stack ml Hl; [discriminate|].
  destruct stack as [|[p vis] stack]; cbn [lsp_loop] in Hl; [injection Hl as <-; lia|].
  destruct (memo !! p) as [m|].
  - apply IH in Hl. lia.
  - inv_okr Hl. destruct a as [st best]. apply IH in Hl. lia.
Qed.

Lemma lsp_dirs_all_wall b p vis ds st best :
  (forall d, d ∈ ds -> inbp (step p d) = true -> cell b (step p d).1 (step p d).2 = Ok WALL) ->
  lsp_dirs b p vis ds st best = Ok (st, best).
Proof.
  induction ds as [|d ds IH]; intros Hw; cbn [lsp_dirs]; [reflexivity|].
  destruct (step p d) as [nr nc] eqn:Hs.
  assert (Hw' : forall d', d' ∈ ds -> inbp (step p d') = true ->
                  cell b (step p d').1 (step p d').2 = Ok WALL)
    by (intros d' Hd'; apply Hw; right; exact Hd').
  destruct (inb nr nc) eqn:Hin; cbn [negb]; [|exact (IH Hw')].
  specialize (Hw d (list_elem_of_here _ _)). rewrite Hs in Hw. cbn [fst snd] in Hw.
  rewrite (Hw Hin), rbind_Ok. exact (IH Hw').
Qed.

Lemma lsp_dirs_open b p vis ds :
  forall st best st' best', lsp_dirs b p vis ds st best = Ok (st', best') ->
  (best <= best')%nat /\
  forall d, d ∈ ds -> inbp (step p d) = true ->
    exists v, cell b (step p d).1 (step p d).2 = Ok v /\
              (v = WALL \/ step p d ∈ vis \/ (1 <= best')%nat).
Proof.
  induction ds as [|d ds IH]; intros st best st' best' Hl; cbn [lsp_dirs] in Hl.
  - injection Hl as <- <-. split; [lia|]. intros d Hd. by apply elem_of_nil in Hd.
  - destruct (step p d) as [nr nc] eqn:Hs.
    destruct (inb nr nc) eqn:Hin; cbn [negb] in Hl.
    + inv_okr Hl. rename a into v.
      destruct (String.eqb v WALL || bool_decide ((nr, nc) ∈ vis)) eqn:Hv.
      * destruct (IH _ _ _ _ Hl) as [Hb Hds]. split; [exact Hb|].
        intros d' Hd' Hi. apply elem_of_cons in Hd' as [->|Hd']; [|exact (Hds d' Hd' Hi)].
        rewrite Hs. exists v. split; [exact E|].
        apply orb_true_iff in Hv as [Hv|Hv]; [left; apply String.eqb_eq, Hv|].
        right; left. apply bool_decide_eq_true in Hv. exact Hv.
      * destruct (IH _ _ _ _ Hl) as [Hb Hds]. split; [lia|].
        intros d' Hd' Hi. apply elem_of_cons in Hd' as [->|Hd']; [|exact (Hds d' Hd' Hi)].
        rewrite Hs. exists v. split; [exact E|]. right; right. lia.
    + destruct (IH _ _ _ _ Hl) as [Hb Hds]. split; [exact Hb|].
      intros d' Hd' Hi. apply elem_of_cons in Hd' as [->|Hd']; [|exact (Hds d' Hd' Hi)].
      exfalso. rewrite Hs in Hi. unfold inbp in Hi. cbn [fst snd] in Hi. congruence.
Qed.

Lemma lsp_loop_enclosed f b s :
  (forall d, inbp (step s d) = true -> cell b (step s d).1 (step s d).2 = Ok WALL) ->
  lsp_loop (S (S f)) b ∅ [(s, ∅)] 0 = Ok 0%nat.
Proof.
  intros Hw. cbn [lsp_loop]. rewrite lookup_empty.
  rewrite (lsp_dirs_all_wall b s ∅ DIRS [] 0 (fun d _ => Hw d)), rbind_Ok.
  reflexivity.
Qed.

Lemma lsp_loop_zero n b s :
  lsp_loop n b ∅ [(s, ∅)] 0 = Ok 0%nat ->
  forall d, inbp (step s d) = true -> cell b (step s d).1 (step s d).2 = Ok WALL.
Proof.
  intros Hl d Hd. destruct n as [|n]; [discriminate|].
  cbn [lsp_loop] in Hl. rewrite lookup_empty in Hl. inv_okr Hl.
  destruct a as [st best]. apply lsp_loop_mono in Hl.
  destruct (lsp_dirs_open _ _ _ _ _ _ _ _ E) as [_ Hds].
  destruct (Hds d (DIRS_complete d) Hd) as (v & Hv & [->|[Hin|Hb]]).
  - exact Hv.
  - by apply not_elem_of_empty in Hin.
  - rewrite size_empty in Hl. lia.
Qed.

(** X7: [longest_safe_path] returns 0 exactly when the board has a first
    row and every in-bounds neighbour of the start is a WALL. *)
Theorem longest_safe_path_zero_iff (b : board) (s : pos) :
  longest_safe_path b s = Ok 0%nat <->
  (exists row0, py_get b 0 = Ok row0) /\
  forall d, inbp (step s d) = true -> cell b (step s d).1 (step s d).2 = Ok WALL.
Proof.
  unfold longest_safe_path. split.
  - intros Hl. inv_okr Hl. split; [exists a; exact E|].
    exact (lsp_loop_zero _ _ _ Hl).
  - intros [[row0 Hrow] Hw]. rewrite Hrow, rbind_Ok.
    replace lsp_fuel with (S (S 1805)) by reflexivity.
    exact (lsp_loop_enclosed _ _ _ Hw).
Qed.

(** ** The BFS of territorial_threat *)

(** A property of distance maps that the guarded writes of the BFS keep. *)
Lemma bfs_dirs_inv (I : dist_map -> Prop) md b p d ds :
  (d < md)%nat ->
  (forall dist dist' i j, I dist -> py_get2 dist i j = Ok None ->
     py_set2 dist i j (Some (S d)) = Ok dist' -> I dist') ->
  forall dist q dist' q', I dist -> bfs_dirs b dist p d ds q = Ok (dist', q') -> I dist'.
Proof.
  intros Hd Hw. induction ds as [|dd ds IH]; intros dist q dist' q' HI Hb; cbn [bfs_dirs] in Hb.
  - injection Hb as <- <-. exact HI.
  - destruct (step p dd) as [nr nc].
    destruct (inb nr nc); cbn [negb] in Hb; [|exact (IH _ _ _ _ HI Hb)].
    inv_okr Hb. destruct (String.eqb a WALL); [exact (IH _ _ _ _ HI Hb)|].
    inv_okr Hb. destruct a0 as [x|]; [exact (IH _ _ _ _ HI Hb)|].
    inv_okr Hb. exact (IH _ _ _ _ (Hw _ _ _ _ HI E0 E1) Hb).
Qed.

Lemma bfs_loop_inv (I : dist_map -> Prop) md b :
  (forall dist dist' i j d, I dist -> (d < md)%nat -> py_get2 dist i j = Ok None ->
     py_set2 dist i j (Some (S d)) = Ok dist' -> I dist') ->
  forall n dist q dm, I dist -> bfs_loop n md b dist q = Ok dm -> I dm.
Proof.
  intros Hw n. induction n as [|n IH]; intros dist q dm HI Hb; [discriminate|].
  destruct q as [|[p d] q]; cbn [bfs_loop] in Hb; [injection Hb as <-; exact HI|].
  destruct (Nat.leb md d) eqn:Hmd; [exact (IH _ _ _ HI Hb)|].
  apply Nat.leb_gt in Hmd. inv_okr Hb. destruct a as [dist' q'].
  apply (IH _ _ _ (bfs_dirs_inv I md b p d DIRS Hmd
                     (fun dist dist' i j HI' => Hw dist dist' i j d HI' Hmd) _ _ _ _ HI E) Hb).
Qed.

Lemma bfs_inv (I : dist_map -> Prop) md b s dm0 dm :
  (forall dist', py_set2 dm0 s.1 s.2 (Some 0%nat) = Ok dist' -> I dist') ->
  (forall dist dist' i j d, I dist -> (d < md)%nat -> py_get2 dist i j = Ok None ->
     py_set2 dist i j (Some (S d)) = Ok dist' -> I dist') ->
  bfs md b s dm0 = Ok dm -> I dm.
Proof.
  intros H0 Hw Hb. unfold bfs in Hb. inv_okr Hb.
  exact (bfs_loop_inv I md b Hw _ _ _ _ (H0 _ E) Hb).
Qed.

Lemma dist_at_get2 dm i j d :
  dist_at dm i j = Some d -> py_get2 dm (Z.of_nat i) (Z.of_nat j) = Ok (Some d).
Proof.
  unfold dist_at.
  match goal with |- match ?m with _ => _ end = _ -> _ => destruct m as [row|] eqn:Ei end;
    [|discriminate].
  match goal with |- match ?m with _ => _ end = _ -> _ => destruct m as [x|] eqn:Ej end;
    [|discriminate].
  intros ->.
  unfold py_get2, py_get. change dist_map with (list (list (option nat))) in *.
  rewrite (py_index_nonneg (length dm) (Z.of_nat i)) by (apply lookup_lt_Some in Ei; lia).
  rewrite Nat2Z.id, Ei. cbn [of_option rbind].
  rewrite (py_index_nonneg (length row) (Z.of_nat j)) by (apply lookup_lt_Some in Ej; lia).
  rewrite Nat2Z.id, Ej. reflexivity.
Qed.

Lemma dist_set2_forall (P : nat -> Prop) (dm dm' : dist_map) i j v :
  (forall a b d, dist_at dm a b = Some d -> P d) -> (forall d, v = Some d -> P d) ->
  py_set2 dm i j v = Ok dm' -> forall a b d, dist_at dm' a b = Some d -> P d.
Proof.
  intros Hall Hv Hs a b d Hd. apply dist_at_get2 in Hd.
  destruct (py_get2_set2 _ _ _ _ _ Hs) as (row & _ & Hg). rewrite Hg in Hd.
  destruct (decide _); [injection Hd as Hd; exact (Hv _ Hd)|].
  apply py_get2_dist in Hd. exact (Hall _ _ _ Hd).
Qed.

Lemma py_get2_same_index {A} (l : list (list A)) i j i' j' row :
  py_get l i = Ok row ->
  py_index (length l) i' = py_index (length l) i ->
  py_index (length row) j' = py_index (length row) j ->
  py_get2 l i' j' = py_get2 l i j.
Proof.
  intros Hrow Hi Hj. unfold py_get2.
  assert (Hg : py_get l i' = py_get l i) by (unfold py_get; rewrite Hi; reflexivity).
  rewrite Hg, Hrow, !rbind_Ok. unfold py_get. rewrite Hj. reflexivity.
Qed.

Lemma py_set2_keeps_some {A} (l l' : list (list (option A))) i j x i' j' (a : A) :
  py_get2 l i j = Ok None -> py_set2 l i j x = Ok l' ->
  py_get2 l i' j' = Ok (Some a) -> py_get2 l' i' j' = Ok (Some a).
Proof.
  intros Hn Hs Ha. destruct (py_get2_set2 _ _ _ _ _ Hs) as (row & Hrow & Hg).
  rewrite Hg. destruct (decide _) as [[Hi Hj]|]; [|exact Ha].
  rewrite (py_get2_same_index _ _ _ _ _ _ Hrow Hi Hj), Hn in Ha. discriminate.
Qed.

Lemma py_set2_shape {A} (l l' : list (list A)) i j x w :
  Forall (fun row => length row = w) l -> py_set2 l i j x = Ok l' ->
  length l' = length l /\ Forall (fun row => length row = w) l'.
Proof.
  intros Hf Hs. unfold py_set2 in Hs. inv_okr Hs. rename a into row, a0 into row'.
  split; [exact (py_set_length _ _ _ _ Hs)|].
  unfold py_set in Hs. destruct (py_index (length l) i) as [k|]; [|discriminate].
  injection Hs as <-. apply Forall_insert; [exact Hf|].
  rewrite (py_set_length _ _ _ _ E0). rewrite Forall_forall in Hf. apply Hf.
  exact (py_get_elem _ _ _ E).
Qed.

Lemma Forall_repeat_len {A} (x : list A) w h :
  length x = w -> Forall (fun row => length row = w) (repeat x h).
Proof. intros Hx. induction h as [|h IH]; constructor; assumption. Qed.

Lemma bfs_map_facts (md : nat) (b : board) (s : pos) (h w : nat) (dm : dist_map) :
  bfs md b s (repeat (repeat None w) h) = Ok dm ->
  length dm = h /\ Forall (fun row => length row = w) dm /\
  py_get2 dm s.1 s.2 = Ok (Some 0%nat) /\
  forall i j d, dist_at dm i j = Some d -> (d <= md)%nat.
Proof.
  intros Hb. split; [|split; [|split]].
  - refine (proj1 (bfs_inv (fun dm => length dm = h /\ Forall (fun row => length row = w) dm) md b s _ dm _ _ Hb)).
    + intros dist' Hs. destruct (py_set2_shape _ _ _ _ _ w (Forall_repeat_len _ w h (repeat_length _ _)) Hs) as [-> Hf].
      split; [apply repeat_length|exact Hf].
    + intros dist dist' i j d [Hl Hf] _ _ Hs. destruct (py_set2_shape _ _ _ _ _ w Hf Hs) as [-> Hf'].
      split; [exact Hl|exact Hf'].
  - refine (bfs_inv (fun dm => Forall (fun row => length row = w) dm) md b s _ dm _ _ Hb).
    + intros dist' Hs. exact (proj2 (py_set2_shape _ _ _ _ _ w (Forall_repeat_len _ w h (repeat_length _ _)) Hs)).
    + intros dist dist' i j d Hf _ _ Hs. exact (proj2 (py_set2_shape _ _ _ _ _ w Hf Hs)).
  - refine (bfs_inv (fun dm => py_get2 dm s.1 s.2 = Ok (Some 0%nat)) md b s _ dm _ _ Hb).
    + intros dist' Hs. exact (cell_set2_same _ _ _ _ _ Hs).
    + intros dist dist' i j d Hs0 _ Hn Hs. exact (py_set2_keeps_some _ _ _ _ _ _ _ _ Hn Hs Hs0).
  - refine (bfs_inv (fun dm => forall i j d, dist_at dm i j = Some d -> (d <= md)%nat) md b s _ dm _ _ Hb).
    + intros dist' Hs. refine (dist_set2_forall _ _ _ _ _ _ _ _ Hs); [|intros d [= <-]; lia].
      intros i j d Hd. unfold dist_at in Hd.
      match type of Hd with match ?m with _ => _ end = _ => destruct m as [row|] eqn:Ei end;
        [|discriminate].
      apply list_elem_of_lookup_2, list_elem_of_In, repeat_spec in Ei. subst row.
      match type of Hd with match ?m with _ => _ end = _ => destruct m as [x|] eqn:Ej end;
        [|discriminate].
      apply list_elem_of_lookup_2, list_elem_of_In, repeat_spec in Ej. subst x. discriminate.
    + intros dist dist' i j d Hc Hd _ Hs. refine (dist_set2_forall _ _ _ _ _ _ Hc _ Hs).
      intros d' [= <-]. lia.
Qed.

(** X8: the [bfs] of [territorial_threat], run on a fresh h-by-w map of
    [None], keeps the map's shape, gives the start depth 0 and records no
    depth above [max_depth]. *)
Theorem bfs_map_spec (md : nat) (b : board) (s : pos) (h w : nat) (dm : dist_map) :
  bfs md b s (repeat (repeat None w) h) = Ok dm ->
  length dm = h /\ Forall (fun row => length row = w) dm /\
  py_get2 dm s.1 s.2 = Ok (Some 0%nat) /\
  forall i j d, dist_at dm i j = Some d -> (d <= md)%nat.
Proof. exact (bfs_map_facts md b s h w dm). Qed.

Lemma bfs_map_spec_witness :
  exists dm, bfs 6 open_board (5, 5) (repeat (repeat None 20) 18) = Ok dm /\
             py_get2 dm 5 5 = Ok (Some 0%nat).
Proof.
  assert (E : bfs 6 open_board (5, 5) (repeat (repeat None 20) 18) =
              Ok (match bfs 6 open_board (5, 5) (repeat (repeat None 20) 18) with
                  | Ok dm => dm | Err _ => [] end)) by (vm_compute; reflexivity).
  eexists. split; [exact E|].
  exact (proj1 (proj2 (proj2 (bfs_map_spec 6 open_board (5, 5) 18 20 _ E)))).
Defined.

Lemma grid_indices_elem h w i j : (i < h)%nat -> (j < w)%nat -> In (i, j) (grid_indices h w).
Proof.
  intros Hi Hj. unfold grid_indices. apply in_flat_map. exists i.
  split; [apply in_seq; lia|]. apply in_map, in_seq. lia.
Qed.

Lemma filter_length_pos {A} (f : A -> bool) l x :
  In x l -> f x = true -> length (List.filter f l) <> 0%nat.
Proof.
  intros Hx Hf Hl. apply length_zero_iff_nil in Hl.
  assert (Hin : In x (List.filter f l)) by (apply filter_In; auto).
  rewrite Hl in Hin. exact Hin.
Qed.

Lemma filter_ext_eq {A} (f g : A -> bool) l :
  (forall x, f x = g x) -> List.filter f l = List.filter g l.
Proof.
  intros Hfg. induction l as [|x l IH]; [reflexivity|].
  cbn [List.filter]. rewrite Hfg, IH. reflexivity.
Qed.

(** X9: when both agents stand on the same cell, [territorial_threat]
    returns 1: every reached cell is contested. *)
Theorem territorial_threat_self (b : board) (p : pos) (r : Q) :
  territorial_threat b p p = Ok r -> (r == 1)%Q.
Proof.
  unfold territorial_threat. intros Ht.
  destruct (territorial_threat_d_spec _ _ _ _ _ Ht) as (row0 & dy & dopp & _ & Hy & Ho & ->).
  rewrite Hy in Ho. injection Ho as <-.
  destruct (bfs_map_facts _ _ _ _ _ _ Hy) as (Hlen & Hrows & Hs & _).
  cbv zeta. rewrite (filter_ext_eq (is_contested dy dy) (is_reached dy)).
  2:{ intros [i j]. unfold is_contested, is_reached. cbn [fst snd].
      destruct (dist_at dy i j); [apply Nat.leb_refl|reflexivity]. }
  assert (Hne : length (List.filter (is_reached dy) (grid_indices (length b) (length row0))) <> 0%nat).
  { unfold py_get2 in Hs. inv_okr Hs. rename a into row.
    change dist_map with (list (list (option nat))) in *.
    unfold py_get in E, Hs.
    destruct (py_index (length dy) p.1) as [i|] eqn:Ei; [|discriminate].
    pose proof (py_index_lt _ _ _ Ei) as Hi.
    destruct (dy !! i) as [row'|] eqn:Er; cbn [of_option] in E; [|discriminate].
    injection E as ->.
    destruct (py_index (length row) p.2) as [j|] eqn:Ej; [|discriminate].
    pose proof (py_index_lt _ _ _ Ej) as Hj.
    destruct (row !! j) as [x|] eqn:Ex; cbn [of_option] in Hs; [|discriminate].
    injection Hs as ->.
    assert (Hrow : length row = length row0).
    { rewrite Forall_forall in Hrows. apply Hrows. by eapply list_elem_of_lookup_2. }
    apply (filter_length_pos _ _ (i, j)); [apply grid_indices_elem; lia|].
    unfold is_reached, dist_at. cbn [fst snd].
    change dist_map with (list (list (option nat))). rewrite Er, Ex. reflexivity. }
  destruct (Nat.eqb _ 0) eqn:Hz; [apply Nat.eqb_eq in Hz; contradiction|].
  unfold Qdiv. apply Qmult_inv_r. unfold Q_of_nat. intros Hq.
  unfold Qeq in Hq. cbn [Qnum Qden inject_Z] in Hq. apply Nat.eqb_neq in Hz. lia.
Qed.

Lemma territorial_threat_self_witness :
  territorial_threat open_board (5, 5) (5, 5) = Ok (83 # 83) /\ (83 # 83 == 1)%Q.
Proof.
  assert (Ht : territorial_threat open_board (5, 5) (5, 5) = Ok (83 # 83)) by (vm_compute; reflexivity).
  split; [exact Ht | exact (territorial_threat_self _ _ _ Ht)].
Defined.

(** ** Boards of one-character cells *)

Lemma substring_one s : String.length s = 1%nat -> substring 0 1 s = s.
Proof.
  destruct s as [|a [|a' s]]; cbn; intros Hs; [discriminate|reflexivity|discriminate].
Qed.

Lemma np_array_u1_id b :
  board_shape b = true -> one_char_cells b -> np_array_u1 b = Ok b.
Proof.
  unfold board_shape. intros Hs Hc. apply andb_prop in Hs as [Hl Hrows].
  destruct b as [|row0 rows]; [discriminate|]. unfold np_array_u1.
  rewrite forallb_forall in Hrows.
  assert (H20 : length row0 = 20%nat) by (apply Nat.eqb_eq, Hrows; left; reflexivity).
  replace (forallb _ _) with true.
  2:{ symmetry. apply forallb_forall. intros row Hrow. rewrite H20. apply Hrows, Hrow. }
  f_equal. rewrite <- (map_id (row0 :: rows)) at 2. apply map_ext_in.
  intros row Hrow. unfold one_char_cells in Hc. rewrite Forall_forall in Hc.
  specialize (Hc row (proj2 (list_elem_of_In _ _) Hrow)). rewrite Forall_forall in Hc.
  rewrite <- (map_id row) at 2. apply map_ext_in. intros s Hs.
  apply substring_one, Hc, list_elem_of_In, Hs.
Qed.

Lemma open_or_wall_one_char b : open_or_wall b -> one_char_cells b.
Proof.
  unfold open_or_wall, one_char_cells. intros Hb.
  eapply Forall_impl; [exact Hb|]. intros row Hrow.
  eapply Forall_impl; [exact Hrow|]. intros s [-> | ->]; reflexivity.
Qed.

(** X10: on a rectangular board of open and WALL cells, [choose_move] of
    search.py picks the move the AI turn of play_vs_agent.py picks,
    falling back to its random move when no move is valid, and raises what
    that turn raises. *)
Theorem choose_move_matches_ai_move (st : game_state) (rnd : dir) :
  board_shape (gs_board st) = true -> open_or_wall (gs_board st) ->
  choose_move st rnd = match ai_move st with
                       | Ok (Some m) => Ok m
                       | Ok None => Ok rnd
                       | Err e => Err e
                       end.
Proof.
  intros Hs Hb. unfold choose_move, ai_move.
  rewrite (np_array_u1_id _ Hs (open_or_wall_one_char _ Hb)), rbind_Ok.
  destruct (filter_valid (gs_board st) (gs_you st) MOVES) as [vs|e]; [rewrite !rbind_Ok|reflexivity].
  destruct vs as [|v vs]; [reflexivity|].
  destruct (score_all st (v :: vs)) as [sc|e]; [rewrite !rbind_Ok|reflexivity].
  destruct (py_max sc) as [m|e]; reflexivity.
Qed.

Lemma choose_move_matches_ai_move_witness :
  choose_move state_open UP = Ok UP /\ ai_move state_open = Ok (Some UP).
Proof.
  split; [|vm_compute; reflexivity].
  rewrite (choose_move_matches_ai_move state_open UP).
  - vm_compute. reflexivity.
  - vm_compute. reflexivity.
  - unfold state_open, open_or_wall, open_board. cbn [gs_board]. repeat constructor.
Defined.

(** ** The state that case_closed_game.py sends *)

Lemma res_map_spec {A B} (f : A -> res B) l ys :
  CaseClosed.res_map f l = Ok ys -> length ys = length l /\ forall y, y ∈ ys -> exists x, x ∈ l /\ f x = Ok y.
Proof.
  revert ys. induction l as [|x l IH]; intros ys Hm; cbn [CaseClosed.res_map] in Hm.
  - injection Hm as <-. split; [reflexivity|]. intros y Hy. by apply elem_of_nil in Hy.
  - inv_okr Hm. injection Hm as <-. destruct (IH _ E0) as [Hl Hys].
    split; [cbn [length]; lia|]. intros y' Hy. apply elem_of_cons in Hy as [->|Hy].
    + exists x. split; [left|exact E].
    + destruct (Hys _ Hy) as (x' & Hx' & Hf). exists x'. split; [right; exact Hx'|exact Hf].
Qed.

Lemma build_state_shape gm js :
  CaseClosed.build_state gm = Ok js ->
  exists b you, js = {| js_board := Some b; js_you := Some you; js_opponent := None;
                        js_opp_dir := None |} /\
    board_shape b = true /\ Forall (Forall (fun s => s = "."%string \/ s = "X"%string)) b.
Proof.
  unfold CaseClosed.build_state. intros Hb. inv_okr Hb. injection Hb as <-.
  rename a into b. do 2 eexists. split; [reflexivity|].
  destruct (res_map_spec _ _ _ E) as [Hl Hrows].
  assert (Hr : forall row, row ∈ b -> length row = 20%nat /\
             Forall (fun s => s = "."%string \/ s = "X"%string) row).
  { intros row Hrow. destruct (Hrows _ Hrow) as (y & _ & Hy).
    destruct (res_map_spec _ _ _ Hy) as [Hl' Hcells]. split.
    - rewrite Hl'. unfold CaseClosed.range. rewrite length_map, length_seq. reflexivity.
    - apply Forall_forall. intros s Hs. destruct (Hcells _ Hs) as (x & _ & Hx).
      inv_okr Hx. injection Hx as <-. destruct (a =? 0); [left|right]; reflexivity. }
  split.
  - unfold board_shape. apply andb_true_intro. split.
    + apply Nat.eqb_eq. rewrite Hl. unfold CaseClosed.range. rewrite length_map, length_seq. reflexivity.
    + apply forallb_forall. intros row Hrow. apply Nat.eqb_eq, Hr, list_elem_of_In, Hrow.
  - apply Forall_forall. intros row Hrow. exact (proj2 (Hr row Hrow)).
Qed.

Lemma legal_moves_loop_none b r c ds :
  board_shape b = true -> (forall r' c' v, cell b r' c' = Ok v -> v <> OPEN) ->
  legal_moves_loop b r c ds = Ok [].
Proof.
  intros Hs Hno. induction ds as [|d ds IH]; cbn [legal_moves_loop]; [reflexivity|].
  destruct (DELTAS d) as [dr dc].
  destruct (inb (r + dr) (c + dc)) eqn:Hin; [|exact IH].
  destruct (shape_cell _ _ _ Hs Hin) as [v Hv]. rewrite Hv, rbind_Ok, IH, rbind_Ok.
  destruct (String.eqb_spec v OPEN) as [->|_]; [exact (False_rect _ (Hno _ _ _ Hv eq_refl))|reflexivity].
Qed.

(** X11: the board that [build_state] of case_closed_game.py sends uses
    ["."] for empty cells, never board.py's open cell, so [legal_moves]
    returns no move and [flood_fill_area] returns 0 from every position of
    it. *)
Theorem build_state_board_has_no_open_cell (gm : CaseClosed.Game) (js : json_state) (b : board) :
  CaseClosed.build_state gm = Ok js -> js_board js = Some b ->
  forall p, legal_moves b p = Ok [] /\ flood_fill_area b p = Ok 0%nat.
Proof.
  intros Hb Hjb p. destruct (build_state_shape _ _ Hb) as (b' & you & -> & Hs & Hc).
  injection Hjb as <-.
  assert (Hno : forall r' c' v, cell b' r' c' = Ok v -> v <> OPEN).
  { intros r' c' v Hv ->. destruct (cell_elem _ _ _ _ Hv) as (row & Hrow & Hin).
    rewrite Forall_forall in Hc. specialize (Hc row Hrow). rewrite Forall_forall in Hc.
    destruct (Hc _ Hin) as [E|E]; discriminate E. }
  split; [exact (legal_moves_loop_none _ _ _ _ Hs Hno)|].
  unfold flood_fill_area, flood_fill_gen.
  destruct (shape_row0 _ Hs) as [row0 Hrow0]. rewrite Hrow0, rbind_Ok.
  destruct (inbp p) eqn:Hp; cbn [negb]; [|reflexivity].
  destruct (shape_cell _ _ _ Hs Hp) as [v Hv]. rewrite Hv, rbind_Ok.
  destruct (String.eqb_spec v OPEN) as [->|_]; [exact (False_rect _ (Hno _ _ _ Hv eq_refl))|reflexivity].
Qed.

Lemma build_state_board_has_no_open_cell_witness :
  match CaseClosed.new_game with
  | Ok gm => match CaseClosed.build_state gm with
             | Ok js => match js_board js with
                        | Some b => legal_moves b (2, 2) = Ok [] | None => False end
             | Err _ => False end
  | Err _ => False
  end.
Proof.
  destruct CaseClosed.new_game as [gm|e] eqn:E1; [|vm_compute in E1; discriminate E1].
  destruct (CaseClosed.build_state gm) as [js|e] eqn:E2;
    [|vm_compute in E1; injection E1 as <-; vm_compute in E2; discriminate E2].
  destruct (js_board js) as [b|] eqn:E3;
    [|vm_compute in E1; injection E1 as <-; vm_compute in E2; injection E2 as <-; discriminate E3].
  exact (proj1 (build_state_board_has_no_open_cell gm js b E2 E3 (2, 2))).
Defined.

Lemma is_valid_move_ok b p m : board_shape b = true -> exists v, is_valid_move b p m = Ok v.
Proof.
  intros Hs. unfold is_valid_move. destruct (step p m) as [nr nc].
  destruct (inb nr nc) eqn:Hin; [|eexists; reflexivity].
  destruct (shape_cell _ _ _ Hs Hin) as [v Hv]. rewrite Hv, rbind_Ok. eexists; reflexivity.
Qed.

Lemma filter_valid_ok b p ms :
  board_shape b = true ->
  exists vs, filter_valid b p ms = Ok vs /\
    forall m, m ∈ ms -> is_valid_move b p m = Ok true -> m ∈ vs.
Proof.
  intros Hs. induction ms as [|m ms IH].
  - exists []. split; [reflexivity|]. intros m Hm. by apply elem_of_nil in Hm.
  - destruct IH as (vs & Hvs & Hin). destruct (is_valid_move_ok b p m Hs) as [ok Hok].
    cbn [filter_valid]. rewrite Hok, rbind_Ok, Hvs, rbind_Ok. eexists. split; [reflexivity|].
    intros m' Hm' Hv. apply elem_of_cons in Hm' as [->|Hm'].
    + rewrite Hok in Hv. injection Hv as ->. left.
    + destruct ok; [right|]; exact (Hin _ Hm' Hv).
Qed.

(** X12: on a state from [build_state], which has no ["opponent"] key, as
    soon as some move is valid [choose_move] raises [KeyError('opponent')]
    and agent.py answers UP. *)
Theorem simulator_agent_answers_up (gm : CaseClosed.Game) (js : json_state) (rnd : dir) :
  CaseClosed.build_state gm = Ok js ->
  (exists b you m, js_board js = Some b /\ js_you js = Some you /\ is_valid_move b you m = Ok true) ->
  choose_move_json js rnd = JRaise (KeyError "opponent") /\ agent_tick_json js rnd = "UP"%string.
Proof.
  intros Hb (b & you & m & Hjb & Hjy & Hv).
  destruct (build_state_shape _ _ Hb) as (b' & you' & -> & Hs & Hc).
  injection Hjb as ->. injection Hjy as ->.
  assert (Hch : choose_move_json
                  {| js_board := Some b; js_you := Some you; js_opponent := None; js_opp_dir := None |}
                  rnd = JRaise (KeyError "opponent")).
  { unfold choose_move_json. cbn [getkey js_board js_you jbind].
    assert (Hone : one_char_cells b).
    { unfold one_char_cells. eapply Forall_impl; [exact Hc|]. intros row Hrow.
      eapply Forall_impl; [exact Hrow|]. intros s [-> | ->]; reflexivity. }
    rewrite (np_array_u1_id _ Hs Hone). cbn [jlift jbind].
    destruct (filter_valid_ok b you MOVES Hs) as (vs & Hvs & Hin).
    rewrite Hvs. cbn [jlift jbind].
    assert (Hm : m ∈ vs) by (apply Hin; [destruct m; unfold MOVES; set_solver|exact Hv]).
    destruct vs as [|v vs]; [by apply elem_of_nil in Hm|]. reflexivity. }
  split; [exact Hch|]. unfold agent_tick_json. rewrite Hch. reflexivity.
Qed.

Lemma simulator_agent_answers_up_witness :
  match CaseClosed.new_game with
  | Ok gm => match CaseClosed.build_state gm with
             | Ok js => agent_tick_json js LEFT = "UP"%string
             | Err _ => False end
  | Err _ => False
  end.
Proof.
  destruct CaseClosed.new_game as [gm|e] eqn:E1; [|vm_compute in E1; discriminate E1].
  destruct (CaseClosed.build_state gm) as [js|e] eqn:E2;
    [|vm_compute in E1; injection E1 as <-; vm_compute in E2; discriminate E2].
  refine (proj2 (simulator_agent_answers_up gm js LEFT E2 _)).
  vm_compute in E1. injection E1 as <-. vm_compute in E2. injection E2 as <-.
  do 2 eexists. exists UP. split; [reflexivity|]. split; [reflexivity|].
  vm_compute. reflexivity.
Defined.

Module CaseClosedFacts.
Import CaseClosed.

Ltac okr H x E :=
  match type of H with
  | rbind ?m _ = Ok _ =>
      destruct m as [x|?] eqn:E; [rewrite rbind_Ok in H; cbv beta in H
                                 |rewrite rbind_Err in H; discriminate H]
  end.

Lemma torus_on_board p : on_board (torus_check p).
Proof.
  destruct p as [x y]. unfold on_board, torus_check, width, height. cbn [fst snd].
  split; apply Z.mod_pos_bound; lia.
Qed.

Lemma torus_id p : on_board p -> torus_check p = p.
Proof.
  destruct p as [x y]. unfold on_board, torus_check, width, height. cbn [fst snd].
  intros [Hx Hy]. f_equal; apply Z.mod_small; lia.
Qed.

Lemma grid_row g y row : grid_ok g -> py_get g y = Ok row -> length row = 20%nat.
Proof.
  intros [_ Hrows] Hrow. rewrite Forall_forall in Hrows.
  exact (Hrows _ (py_get_elem _ _ _ Hrow)).
Qed.

Lemma get_cell_state_ok g p : grid_ok g -> exists v, get_cell_state g p = Ok v.
Proof.
  intros Hg. pose proof (torus_on_board p) as Hp. unfold get_cell_state.
  destruct (torus_check p) as [x y]. unfold on_board in Hp. cbn [fst snd] in Hp.
  destruct Hg as [Hl Hrows]. unfold py_get2, py_get.
  rewrite (py_index_nonneg (length g) y) by (rewrite Hl; unfold height, width in *; lia).
  destruct (lookup_lt_is_Some_2 g (Z.to_nat y)) as [row Hrow];
    [rewrite Hl; unfold height in *; lia|].
  rewrite Hrow. cbn [of_option]. rewrite rbind_Ok.
  assert (Hlen : length row = 20%nat).
  { rewrite Forall_forall in Hrows. apply Hrows. by eapply list_elem_of_lookup_2. }
  rewrite (py_index_nonneg (length row) x) by (unfold width in *; lia).
  destruct (lookup_lt_is_Some_2 row (Z.to_nat x)) as [v Hv]; [unfold width in *; lia|].
  rewrite Hv. eexists; reflexivity.
Qed.

Lemma set_cell_state_ok g q s : grid_ok g -> exists g', set_cell_state g q s = Ok g'.
Proof.
  intros Hg. pose proof (torus_on_board q) as Hq. unfold set_cell_state.
  destruct (torus_check q) as [x y]. unfold on_board in Hq. cbn [fst snd] in Hq.
  destruct Hg as [Hl Hrows]. unfold py_set2, py_get.
  rewrite (py_index_nonneg (length g) y) by (rewrite Hl; unfold height, width in *; lia).
  destruct (lookup_lt_is_Some_2 g (Z.to_nat y)) as [row Hrow];
    [rewrite Hl; unfold height in *; lia|].
  rewrite Hrow. cbn [of_option]. rewrite rbind_Ok.
  assert (Hlen : length row = 20%nat).
  { rewrite Forall_forall in Hrows. apply Hrows. by eapply list_elem_of_lookup_2. }
  unfold py_set.
  rewrite (py_index_nonneg (length row) x) by (unfold width in *; lia). rewrite rbind_Ok.
  rewrite (py_index_nonneg (length g) y) by (rewrite Hl; unfold height, width in *; lia).
  eexists; reflexivity.
Qed.

Lemma get_set_cell g g' q s :
  grid_ok g -> set_cell_state g q s = Ok g' ->
  grid_ok g' /\
  forall p, get_cell_state g' p =
    if decide (torus_check p = torus_check q) then Ok s else get_cell_state g p.
Proof.
  intros Hg Hs. pose proof (torus_on_board q) as Hq. unfold set_cell_state in Hs.
  unfold get_cell_state. destruct (torus_check q) as [qx qy].
  unfold on_board in Hq. cbn [fst snd] in Hq.
  destruct (py_set2_shape _ _ _ _ _ _ (proj2 Hg) Hs) as [Hl' Hf']. split.
  { split; [rewrite Hl'; exact (proj1 Hg)|exact Hf']. }
  destruct (py_get2_set2 _ _ _ _ _ Hs) as (row & Hrow & Hget).
  pose proof (grid_row _ _ _ Hg Hrow) as Hlen. destruct Hg as [Hl _].
  intros p. pose proof (torus_on_board p) as Hp.
  destruct (torus_check p) as [px py]. unfold on_board in Hp. cbn [fst snd] in Hp.
  rewrite Hget. unfold height, width in *.
  destruct (decide ((px, py) = (qx, qy))) as [E|E].
  - injection E as -> ->. rewrite decide_True by tauto. reflexivity.
  - rewrite decide_False; [reflexivity|]. intros [E1 E2].
    rewrite !(py_index_nonneg (length g)) in E1 by (rewrite Hl; lia).
    rewrite !(py_index_nonneg (length row)) in E2 by lia.
    injection E1 as E1. injection E2 as E2. apply E. f_equal; lia.
Qed.

(** X13: on an 18-by-20 grid, [get_cell_state] and [set_cell_state] never
    raise, whatever the coordinates; a write is read back at every
    position with the same torus image and changes no other cell. *)
Theorem grid_access_total (g : grid) :
  grid_ok g ->
  (forall p, exists v, get_cell_state g p = Ok v) /\
  (forall q s, exists g', set_cell_state g q s = Ok g' /\ grid_ok g' /\
     get_cell_state g' q = Ok s /\
     forall p, torus_check p <> torus_check q -> get_cell_state g' p = get_cell_state g p).
Proof.
  intros Hg. split; [intros p; exact (get_cell_state_ok g p Hg)|].
  intros q s. destruct (set_cell_state_ok g q s Hg) as [g' Hs]. exists g'.
  destruct (get_set_cell _ _ _ _ Hg Hs) as [Hg' Hget].
  split; [exact Hs|]. split; [exact Hg'|]. split.
  - rewrite Hget. rewrite decide_True by reflexivity. reflexivity.
  - intros p Hp. rewrite Hget. rewrite decide_False by exact Hp. reflexivity.
Qed.

Lemma grid_access_total_witness :
  get_cell_state new_grid (-1, 40) = Ok EMPTY /\
  exists g', set_cell_state new_grid (-1, 40) AGENT = Ok g' /\ grid_ok g' /\
    get_cell_state g' (-1, 40) = Ok AGENT /\
    forall p, torus_check p <> torus_check (-1, 40) -> get_cell_state g' p = get_cell_state new_grid p.
Proof.
  split; [vm_compute; reflexivity|].
  apply (proj2 (grid_access_total new_grid ltac:(split; [reflexivity|repeat constructor]))).
Defined.

(** ** The bookkeeping of the agents *)

Lemma agent_ok_set g g' q a :
  grid_ok g -> agent_ok g a -> set_cell_state g q AGENT = Ok g' -> agent_ok g' a.
Proof.
  intros Hg (Hl & Hnd & Hm & Hb) Hs. destruct (get_set_cell _ _ _ _ Hg Hs) as [_ Hget].
  split; [exact Hl|]. split; [exact Hnd|]. split; [|exact Hb].
  intros p Hp. destruct (Hm p Hp) as [Hon Hc]. split; [exact Hon|].
  rewrite Hget. destruct (decide _); [reflexivity|exact Hc].
Qed.

Lemma move_iter_ok g self other d o :
  grid_ok g -> agent_ok g self -> agent_ok g other ->
  move_iter g self other d = Ok o ->
  forall g' s' o', (o = Continue g' s' o' \/ o = ReturnFalse g' s' o') ->
  grid_ok g' /\ agent_ok g' s' /\ agent_ok g' o'.
Proof.
  intros Hg Hs Ho Hm g' s' o' Heq. unfold move_iter in Hm.
  destruct (Direction.value (direction self)) as [cdx cdy].
  destruct (Direction.value d) as [rdx rdy].
  destruct (bool_decide _).
  { injection Hm as <-. destruct Heq as [[= <- <- <-]|[=]]. auto. }
  okr Hm hp Eh. okr Hm cst E0.
  set (nh := torus_check (hp.1 + rdx, hp.2 + rdy)) in *.
  destruct ((cst =? AGENT) && bool_decide (nh ∈ trail (set_direction self d))) eqn:C1.
  { injection Hm as <-. destruct Heq as [[=]|[= <- <- <-]]. auto. }
  destruct ((cst =? AGENT) && alive other && bool_decide (nh ∈ trail other)) eqn:C2.
  { okr Hm h Ehd. destruct h; injection Hm as <-; destruct Heq as [[=]|[= <- <- <-]]; auto. }
  okr Hm g1 E1. injection Hm as <-.
  destruct Heq as [[= <- <- <-]|[=]].
  destruct (get_set_cell _ _ _ _ Hg E1) as [Hg1 Hget].
  split; [exact Hg1|]. split; [|exact (agent_ok_set _ _ _ _ Hg Ho E1)].
  destruct Hs as (Hl & Hnd & Hmk & Hb).
  assert (Hnot : nh ∉ trail self).
  { intros Hin. destruct (Hmk _ Hin) as [_ Hc]. rewrite E0 in Hc. injection Hc as ->.
    rewrite Z.eqb_refl in C1. cbn [andb set_direction trail] in C1.
    rewrite bool_decide_eq_true_2 in C1 by exact Hin. discriminate. }
  unfold agent_ok, extend, set_direction. cbn [trail agent_length boosts_remaining].
  split; [rewrite length_app; cbn [length]; lia|].
  split.
  { apply NoDup_app. split; [exact Hnd|]. split; [|apply NoDup_singleton].
    intros x Hx Hx'. apply list_elem_of_singleton in Hx' as ->. contradiction. }
  split; [|exact Hb].
  intros p Hp. apply elem_of_app in Hp as [Hp|Hp].
  - destruct (Hmk p Hp) as [Hon Hc]. split; [exact Hon|].
    rewrite Hget. destruct (decide _); [reflexivity|exact Hc].
  - apply list_elem_of_singleton in Hp as ->. split; [apply torus_on_board|].
    rewrite Hget, decide_True by reflexivity. reflexivity.
Qed.

Lemma move_loop_ok n :
  forall g self other d g' s' o' v,
  grid_ok g -> agent_ok g self -> agent_ok g other ->
  move_loop n g self other d = Ok (g', s', o', v) ->
  grid_ok g' /\ agent_ok g' s' /\ agent_ok g' o'.
Proof.
  induction n as [|n IH]; intros g self other d g' s' o' v Hg Hs Ho Hm; cbn [move_loop] in Hm.
  - injection Hm as <- <- <- _. auto.
  - okr Hm o E. destruct o as [g1 s1 o1|g1 s1 o1].
    + destruct (move_iter_ok _ _ _ _ _ Hg Hs Ho E _ _ _ (or_introl eq_refl)) as (Hg1 & Hs1 & Ho1).
      exact (IH _ _ _ _ _ _ _ _ Hg1 Hs1 Ho1 Hm).
    + injection Hm as <- <- <- _.
      exact (move_iter_ok _ _ _ _ _ Hg Hs Ho E _ _ _ (or_intror eq_refl)).
Qed.

Lemma move_ok g self other d boost g' s' o' v :
  grid_ok g -> agent_ok g self -> agent_ok g other ->
  move g self other d boost = Ok (g', s', o', v) ->
  grid_ok g' /\ agent_ok g' s' /\ agent_ok g' o'.
Proof.
  intros Hg Hs Ho Hm. unfold move in Hm.
  destruct (alive self); cbn [negb] in Hm; [|injection Hm as <- <- <- _; auto].
  destruct boost; cbn [andb] in Hm; [|exact (move_loop_ok _ _ _ _ _ _ _ _ _ Hg Hs Ho Hm)].
  destruct (boosts_remaining self <=? 0) eqn:Hb; [exact (move_loop_ok _ _ _ _ _ _ _ _ _ Hg Hs Ho Hm)|].
  apply Z.leb_gt in Hb. refine (move_loop_ok _ _ _ _ _ _ _ _ _ Hg _ Ho Hm).
  destruct Hs as (Hl & Hnd & Hmk & Hbr). unfold agent_ok, use_one_boost.
  cbn [trail agent_length boosts_remaining]. split; [exact Hl|]. split; [exact Hnd|].
  split; [exact Hmk|]. lia.
Qed.

Lemma step_ok gm d1 d2 b1 b2 gm' r :
  grid_ok (game_board gm) -> agent_ok (game_board gm) (agent1 gm) ->
  agent_ok (game_board gm) (agent2 gm) ->
  step gm d1 d2 b1 b2 = Ok (gm', r) ->
  grid_ok (game_board gm') /\ agent_ok (game_board gm') (agent1 gm') /\
  agent_ok (game_board gm') (agent2 gm').
Proof.
  intros Hg H1 H2 Hs. unfold step in Hs.
  destruct (200 <=? turns gm); [injection Hs as <- _; auto|].
  okr Hs r1 E. destruct r1 as [[[g1 a1] a2] ok1].
  destruct (move_ok _ _ _ _ _ _ _ _ _ Hg H1 H2 E) as (Hg1 & Ha1 & Ha2).
  okr Hs r2 E0. destruct r2 as [[[g2 a2'] a1'] ok2].
  destruct (move_ok _ _ _ _ _ _ _ _ _ Hg1 Ha2 Ha1 E0) as (Hg2 & Ha2' & Ha1').
  injection Hs as <- _. cbn [game_board agent1 agent2]. auto.
Qed.

Lemma new_game_ok gm :
  new_game = Ok gm ->
  grid_ok (game_board gm) /\ agent_ok (game_board gm) (agent1 gm) /\
  agent_ok (game_board gm) (agent2 gm).
Proof.
  intros E. vm_compute in E. injection E as <-.
  split; [split; [reflexivity|repeat constructor]|].
  split; (split; [reflexivity|]; split; [apply (bool_decide_eq_true_1 _); vm_compute; reflexivity|];
          split; [|cbn; lia]);
    intros p Hp; repeat (apply elem_of_cons in Hp as [->|Hp]);
    try (by apply elem_of_nil in Hp);
    (split; [unfold on_board, width, height; cbn; lia|vm_compute; reflexivity]).
Qed.

(** X14: every game reached from [Game()] by [step] keeps an 18-by-20
    grid, and each agent's [length] counts its trail, the trail has no
    repeated cell, each trail cell is on the board and marked AGENT, and
    [0 <= boosts_remaining <= 3]. *)
Theorem reachable_game_ok (gm : Game) :
  reachable gm ->
  grid_ok (game_board gm) /\ agent_ok (game_board gm) (agent1 gm) /\
  agent_ok (game_board gm) (agent2 gm).
Proof.
  induction 1 as [gm E|gm gm' d1 d2 b1 b2 r _ IH Hs].
  - exact (new_game_ok _ E).
  - destruct IH as (Hg & H1 & H2). exact (step_ok _ _ _ _ _ _ _ Hg H1 H2 Hs).
Qed.

Lemma reachable_game_ok_witness :
  match new_game with
  | Ok gm => match step gm Direction.UP Direction.LEFT true false with
             | Ok (gm', _) => agent_ok (game_board gm') (agent1 gm')
             | Err _ => False end
  | Err _ => False
  end.
Proof.
  destruct new_game as [gm|e] eqn:E1; [|vm_compute in E1; discriminate E1].
  destruct (step gm Direction.UP Direction.LEFT true false) as [[gm' r]|e] eqn:E2;
    [|vm_compute in E1; injection E1 as <-; vm_compute in E2; discriminate E2].
  exact (proj1 (proj2 (reachable_game_ok gm' (game_step gm gm' _ _ _ _ r (game_init gm E1) E2)))).
Defined.

Lemma move_iter_alive g self other d o :
  move_iter g self other d = Ok o ->
  match o with
  | Continue _ s' o' => alive s' = alive self /\ alive o' = alive other
  | ReturnFalse _ s' o' => alive s' = false /\ (alive other = false -> alive o' = false)
  end.
Proof.
  intros Hm. unfold move_iter in Hm.
  destruct (Direction.value (direction self)) as [cdx cdy].
  destruct (Direction.value d) as [rdx rdy].
  destruct (bool_decide _); [injection Hm as <-; auto|].
  okr Hm hp Eh. okr Hm cst Ec.
  destruct (_ && bool_decide _); [injection Hm as <-; auto|].
  destruct (_ && _ && bool_decide _).
  - okr Hm h Ehd. destruct h; injection Hm as <-; auto.
  - okr Hm g1 Eg. injection Hm as <-. auto.
Qed.

Lemma move_loop_alive n :
  forall g self other d g' s' o' v,
  alive self = true ->
  move_loop n g self other d = Ok (g', s', o', v) ->
  alive s' = v /\ (v = true -> alive o' = alive other) /\
  (alive other = false -> alive o' = false).
Proof.
  induction n as [|n IH]; intros g self other d g' s' o' v Ha Hm; cbn [move_loop] in Hm.
  - injection Hm as <- <- <- <-. auto.
  - okr Hm o E. pose proof (move_iter_alive _ _ _ _ _ E) as Ho.
    destruct o as [g1 s1 o1|g1 s1 o1].
    + destruct Ho as [Hs1 Ho1]. rewrite Ha in Hs1.
      destruct (IH _ _ _ _ _ _ _ _ Hs1 Hm) as (H1 & H2 & H3).
      rewrite Ho1 in H2, H3. auto.
    + injection Hm as <- <- <- <-. destruct Ho as [Hs1 Ho1]. split; [exact Hs1|].
      split; [discriminate|exact Ho1].
Qed.

Lemma move_alive g self other d boost g' s' o' v :
  move g self other d boost = Ok (g', s', o', v) ->
  alive s' = v /\ (v = true -> alive o' = alive other) /\
  (alive other = false -> alive o' = false).
Proof.
  intros Hm. unfold move in Hm.
  destruct (alive self) eqn:Ha; cbn [negb] in Hm; [|injection Hm as <- <- <- <-; auto].
  destruct (boost && (boosts_remaining self <=? 0)); destruct boost;
    (refine (move_loop_alive _ _ _ _ _ _ _ _ _ _ Hm); exact Ha).
Qed.

(** X16: a turn of [Game.step] below turn 200 counts one more turn and its
    result reflects who is alive afterwards: [None] exactly when both
    agents are, [DRAW] when neither is, [AGENT2_WIN] when only agent 2 is;
    [AGENT1_WIN] only guarantees that agent 2 is dead. *)
Theorem step_result_alive gm d1 d2 b1 b2 gm' r :
  turns gm < 200 ->
  step gm d1 d2 b1 b2 = Ok (gm', r) ->
  turns gm' = turns gm + 1 /\
  (r = None <-> alive (agent1 gm') = true /\ alive (agent2 gm') = true) /\
  (r = Some DRAW -> alive (agent1 gm') = false /\ alive (agent2 gm') = false) /\
  (r = Some AGENT2_WIN -> alive (agent1 gm') = false /\ alive (agent2 gm') = true) /\
  (r = Some AGENT1_WIN -> alive (agent2 gm') = false).
Proof.
  intros Ht Hs. unfold step in Hs.
  destruct (200 <=? turns gm) eqn:H200; [apply Z.leb_le in H200; lia|].
  okr Hs r1 E1. destruct r1 as [[[g1 a1] a2] v1].
  okr Hs r2 E2. destruct r2 as [[[g2 a2'] a1'] v2].
  injection Hs as <- <-. cbn [turns agent1 agent2].
  destruct (move_alive _ _ _ _ _ _ _ _ _ E1) as (A1 & _ & _).
  destruct (move_alive _ _ _ _ _ _ _ _ _ E2) as (A2 & B2 & C2).
  split; [reflexivity|].
  destruct v1, v2; cbn [negb andb].
  - rewrite (B2 eq_refl), A1, A2. repeat split; discriminate.
  - rewrite A2. repeat split; try discriminate; intros [_ ?]; discriminate.
  - rewrite A2, (B2 eq_refl), A1. repeat split; try discriminate; intros [? _]; discriminate.
  - rewrite A2, (C2 A1). repeat split; try discriminate; intros [? _]; discriminate.
Qed.

Lemma step_result_alive_witness :
  match new_game with
  | Ok g0 =>
      match fold_left (fun acc d => match acc with
                                    | Ok (g, _) => step g d Direction.LEFT false false
                                    | Err e => Err e end)
              (repeat Direction.DOWN 11) (step g0 Direction.DOWN Direction.LEFT true false) with
      | Ok (gm, _) =>
          match step gm Direction.RIGHT Direction.LEFT false false with
          | Ok (gm', r) =>
              r = Some AGENT1_WIN /\ alive (agent1 gm') = false /\ alive (agent2 gm') = false
          | Err _ => False
          end
      | Err _ => False
      end
  | Err _ => False
  end.
Proof.
  destruct new_game as [g0|e] eqn:E0; [|vm_compute in E0; discriminate E0].
  vm_compute in E0. injection E0 as <-.
  match goal with |- match ?m with _ => _ end => destruct m as [[gm r0]|e] eqn:E1 end;
    [|vm_compute in E1; discriminate E1].
  vm_compute in E1. injection E1 as <- _.
  destruct (step _ Direction.RIGHT Direction.LEFT false false) as [[gm' r]|e] eqn:E2;
    [|vm_compute in E2; discriminate E2].
  pose proof E2 as E3. vm_compute in E3. injection E3 as Hg Hr. subst r.
  split; [reflexivity|]. split; [rewrite <- Hg; vm_compute; reflexivity|].
  refine (proj2 (proj2 (proj2 (proj2 (step_result_alive _ _ _ _ _ gm' _ _ E2)))) eq_refl).
  vm_compute. reflexivity.
Defined.

(** X15: the game that [main] plays is always the same: whatever agent.py's
    random choices, it ends at turn 14 with [AGENT1_WIN], agent 1 alive and
    agent 2 dead. Agent 1 always answers UP (see X12), and agent 2, going
    LEFT along row 15, runs into agent 1's trail. *)
Theorem simulation_ends_turn14 (rnds : nat -> dir) (k : nat) :
  match new_game with
  | Ok gm0 => exists gm', sim_loop (15 + k) rnds gm0 = Ok (gm', AGENT1_WIN) /\
               turns gm' = 14 /\ alive (agent1 gm') = true /\ alive (agent2 gm') = false
  | Err _ => False
  end.
Proof.
  destruct new_game as [gm0|e] eqn:E; [|vm_compute in E; discriminate E].
  exists (match sim_loop 15 (fun _ => UP) gm0 with Ok (g, _) => g | Err _ => gm0 end).
  vm_compute in E. injection E as <-.
  split; [vm_compute; reflexivity|]. vm_compute. auto.
Qed.

End CaseClosedFacts.
